(** * ArtAuction_Z: sealed-bid auction contract

    A shallow embedding of the Solidity contract [ArtAuction_Z]
    (storage, the four transactions, the five views) and the properties of
    its bid lifecycle: the running maximum of revealed bids, one-shot
    finalisation, the bidder list, and the failure cases.

    Conventions.
    - [uint256], [uint32], [address], [euint32] (a [bytes32] handle) are
      integers in [Z]; the contract performs no arithmetic on them, only
      comparisons, so no wrap-around can arise.  The only place where a
      width matters is [abi.decode(.., (uint32))], written out below.
    - A Solidity [mapping] is total: reading a key never written gives the
      zero value.  Mappings are [gmap]s read with the total lookup [!!!],
      whose default is the zero value of the struct.
    - A transaction either commits or reverts; a revert discards every
      write.  Functions return [Ok (state', effects)] or [Err reason].
    - The FHE library is not part of the contract: its two entry points
      that can revert are taken as an interface, class [FHE]. *)

From Stdlib Require Import ZArith List Lia Bool.
From stdpp Require Import gmap strings list fin_maps.
Import ListNotations.

Open Scope Z_scope.

(** ** Primitive types *)

Abbreviation address := Z (only parsing).
Abbreviation uint256 := Z (only parsing).
Abbreviation uint32 := Z (only parsing).
Abbreviation euint32 := Z (only parsing).
Abbreviation externalEuint32 := Z (only parsing).
Abbreviation bytes := (list Byte.byte) (only parsing).

(** [bytes(s).length] *)
Definition bytes_length (s : string) : Z := Z.of_nat (String.length s).

(** ** Storage *)

Record Bid := mkBid {
  bidder : address;
  encryptedBidAmount : euint32;
  timestamp : uint256;
  isDecrypted : bool;
  decryptedBidAmount : uint32
}.

Record Auction := mkAuction {
  nftTokenId : string;
  startTime : uint256;
  endTime : uint256;
  highestBidder : address;
  highestBidAmount : uint32;
  isActive : bool;
  bids : gmap Z Bid;
  bidders : list Z
}.

Record State := mkState {
  auctions : gmap string Auction;
  auctionIds : list string
}.

(** Zero values, returned by a mapping for a key never written. *)
Definition zeroBid : Bid := mkBid 0 0 0 false 0.
Definition zeroAuction : Auction := mkAuction "" 0 0 0 0 false ∅ [].

#[global] Instance Bid_inhabited : Inhabited Bid := populate zeroBid.
#[global] Instance Auction_inhabited : Inhabited Auction := populate zeroAuction.

(** The contract right after deployment. *)
Definition init : State := mkState ∅ [].

(** ** Transaction context *)

Record Env := mkEnv {
  msg_sender : address;
  block_timestamp : uint256
}.

(** ** Events and library effects *)

(** The four events the contract declares (lines 29-32).  Entries that the
    FHE library writes to the log from inside its own functions, such as
    [PublicDecryptionVerified] from [FHE.checkSignatures], belong to the
    library and are not among them. *)
Inductive Event :=
| AuctionCreated (auctionId nftTokenId : string) (startTime endTime : uint256)
| BidPlaced (auctionId : string) (bidder : address) (encryptedBidAmount : euint32)
| BidDecrypted (auctionId : string) (bidder : address) (decryptedBidAmount : uint32)
| AuctionFinalized (auctionId : string) (winner : address) (winningBid : uint32).

Inductive Effect :=
| AllowThis (h : euint32)
| MakePubliclyDecryptable (h : euint32)
| Emit (e : Event).

(** ** Reverts *)

(** One constructor per [require] of the contract, named after its message,
    and one per library call that can revert. *)
Inductive Revert :=
| Auction_already_exists
| Start_time_must_be_in_future
| End_time_must_be_after_start_time
| Auction_does_not_exist
| Auction_not_active
| Invalid_encrypted_input
| Bid_already_placed
| Auction_not_ended
| Bid_already_decrypted
| Auction_already_finalized
| No_valid_bids
| FHE_input_rejected        (* FHE.fromExternal reverted *)
| FHE_invalid_signatures    (* FHE.checkSignatures reverted *)
| Abi_decode_error.         (* abi.decode reverted *)

Definition message (r : Revert) : string :=
  match r with
  | Auction_already_exists => "Auction already exists"
  | Start_time_must_be_in_future => "Start time must be in future"
  | End_time_must_be_after_start_time => "End time must be after start time"
  | Auction_does_not_exist => "Auction does not exist"
  | Auction_not_active => "Auction not active"
  | Invalid_encrypted_input => "Invalid encrypted input"
  | Bid_already_placed => "Bid already placed"
  | Auction_not_ended => "Auction not ended"
  | Bid_already_decrypted => "Bid already decrypted"
  | Auction_already_finalized => "Auction already finalized"
  | No_valid_bids => "No valid bids"
  | FHE_input_rejected => "FHE.fromExternal"
  | FHE_invalid_signatures => "FHE.checkSignatures"
  | Abi_decode_error => "abi.decode"
  end.

(** The error taxonomy of the specification, and the class of each revert. *)
Module Taxonomy.
Inductive kind :=
| AlreadyExists | NotFound | InvalidTimeWindow | InactiveWindow
| InvalidCiphertext | DuplicateBid | AuctionNotEnded | AlreadyDecrypted
| InvalidProof | AlreadyFinalized | NoValidBids.
End Taxonomy.

Definition kindOf (r : Revert) : Taxonomy.kind :=
  match r with
  | Auction_already_exists => Taxonomy.AlreadyExists
  | Start_time_must_be_in_future => Taxonomy.InvalidTimeWindow
  | End_time_must_be_after_start_time => Taxonomy.InvalidTimeWindow
  | Auction_does_not_exist => Taxonomy.NotFound
  | Auction_not_active => Taxonomy.InactiveWindow
  | Invalid_encrypted_input => Taxonomy.InvalidCiphertext
  | Bid_already_placed => Taxonomy.DuplicateBid
  | Auction_not_ended => Taxonomy.AuctionNotEnded
  | Bid_already_decrypted => Taxonomy.AlreadyDecrypted
  | Auction_already_finalized => Taxonomy.AlreadyFinalized
  | No_valid_bids => Taxonomy.NoValidBids
  | FHE_input_rejected => Taxonomy.InvalidCiphertext
  | FHE_invalid_signatures => Taxonomy.InvalidProof
  | Abi_decode_error => Taxonomy.InvalidProof
  end.

(** ** The error monad of a transaction *)

Inductive result (A : Type) :=
| Ok (a : A)
| Err (r : Revert).
Arguments Ok {A} a.
Arguments Err {A} r.

#[global] Instance result_ret : MRet result := λ A a, Ok a.
#[global] Instance result_bind : MBind result := λ A B f m,
  match m with
  | Ok a => f a
  | Err r => Err r
  end.

Definition require (cond : bool) (r : Revert) : result unit :=
  if cond then Ok tt else Err r.

Definition orRevert {A} (o : option A) (r : Revert) : result A :=
  match o with
  | Some a => Ok a
  | None => Err r
  end.

(** ** ABI decoding of the clear value *)

(** Big-endian value of a byte string. *)
Definition be_value (bs : bytes) : Z :=
  fold_left (λ acc b, acc * 256 + Z.of_N (Byte.to_N b)) bs 0.

(** [abi.decode(data, (uint32))]: the data must hold one 32-byte word and
    the word must fit in 32 bits; bytes after the first word are ignored. *)
Definition abi_decode_uint32 (data : bytes) : result uint32 :=
  if Z.of_nat (length data) <? 32 then Err Abi_decode_error
  else
    let w := be_value (take 32 data) in
    if w <? 2 ^ 32 then Ok w else Err Abi_decode_error.

(** ** The FHE library, as an interface *)

Class FHE := {
  (** [FHE.fromExternal(handle, inputProof)] as called by [sender]: the
      verified handle, or [None] when the library reverts. *)
  fromExternal : address → externalEuint32 → bytes → option euint32;
  (** [FHE.checkSignatures(cts, cleartexts, proof)]: [false] when the
      library reverts. *)
  checkSignatures : list Z → bytes → bytes → bool
}.

(** [FHE.isInitialized(h)] and [FHE.toBytes32(h)] are plain operations on
    the handle. *)
Definition isInitialized (h : euint32) : bool := negb (h =? 0).
Definition toBytes32 (h : euint32) : Z := h.

(** ** The contract *)

Section Contract.
Context {fhe : FHE}.

(** [auctions[auctionId]] *)
Definition auctionOf (s : State) (auctionId : string) : Auction :=
  auctions s !!! auctionId.

(** [auction.bids[who]] *)
Definition bidOf (a : Auction) (who : address) : Bid :=
  bids a !!! who.

(** [bytes(auctions[auctionId].nftTokenId).length > 0] *)
Definition auctionExists (s : State) (auctionId : string) : bool :=
  0 <? bytes_length (nftTokenId (auctionOf s auctionId)).

(** The modifier [auctionOngoing]. *)
Definition auctionOngoing (s : State) (env : Env) (auctionId : string)
  : result unit :=
  require (auctionExists s auctionId) Auction_does_not_exist ;;
  require ((startTime (auctionOf s auctionId) <=? block_timestamp env)
           && (block_timestamp env <=? endTime (auctionOf s auctionId)))
          Auction_not_active ;;
  require (isActive (auctionOf s auctionId)) Auction_not_active.

(** The struct literal names six members.  The array [bidders] of the
    value assigned is empty; the mapping [bids] of the slot cannot be
    assigned and stays as it is.  (Lemma [wf_fresh] below: whenever the
    first [require] passes in a reachable state, both are empty.) *)
Definition createAuction (s : State) (env : Env)
    (auctionId nftTokenId' : string) (startTime' endTime' : uint256)
  : result (State * list Effect) :=
  require (bytes_length (nftTokenId (auctionOf s auctionId)) =? 0)
          Auction_already_exists ;;
  require (block_timestamp env <=? startTime') Start_time_must_be_in_future ;;
  require (startTime' <? endTime') End_time_must_be_after_start_time ;;
  let auction :=
    {| nftTokenId := nftTokenId';
       startTime := startTime';
       endTime := endTime';
       highestBidder := 0;
       highestBidAmount := 0;
       isActive := true;
       bids := bids (auctionOf s auctionId);
       bidders := [] |} in
  Ok ({| auctions := <[auctionId := auction]> (auctions s);
         auctionIds := auctionIds s ++ [auctionId] |},
      [Emit (AuctionCreated auctionId nftTokenId' startTime' endTime')]).

Definition placeBid (s : State) (env : Env)
    (auctionId : string) (encryptedBidAmount' : externalEuint32)
    (inputProof : bytes)
  : result (State * list Effect) :=
  auctionOngoing s env auctionId ;;
  checked ← orRevert (fromExternal (msg_sender env) encryptedBidAmount' inputProof)
                     FHE_input_rejected ;
  require (isInitialized checked) Invalid_encrypted_input ;;
  let auction := auctionOf s auctionId in
  require (encryptedBidAmount (bidOf auction (msg_sender env)) =? 0)
          Bid_already_placed ;;
  encryptedBid ← orRevert (fromExternal (msg_sender env) encryptedBidAmount' inputProof)
                          FHE_input_rejected ;
  let bid :=
    {| bidder := msg_sender env;
       encryptedBidAmount := encryptedBid;
       timestamp := block_timestamp env;
       isDecrypted := false;
       decryptedBidAmount := 0 |} in
  let auction' :=
    {| nftTokenId := nftTokenId auction;
       startTime := startTime auction;
       endTime := endTime auction;
       highestBidder := highestBidder auction;
       highestBidAmount := highestBidAmount auction;
       isActive := isActive auction;
       bids := <[msg_sender env := bid]> (bids auction);
       bidders := bidders auction ++ [msg_sender env] |} in
  Ok ({| auctions := <[auctionId := auction']> (auctions s);
         auctionIds := auctionIds s |},
      [AllowThis encryptedBid;
       MakePubliclyDecryptable encryptedBid;
       Emit (BidPlaced auctionId (msg_sender env) encryptedBid)]).

Definition decryptBid (s : State) (env : Env)
    (auctionId : string) (abiEncodedClearValue decryptionProof : bytes)
  : result (State * list Effect) :=
  require (auctionExists s auctionId) Auction_does_not_exist ;;
  require (endTime (auctionOf s auctionId) <? block_timestamp env)
          Auction_not_ended ;;
  let auction := auctionOf s auctionId in
  let bid := bidOf auction (msg_sender env) in
  require (negb (isDecrypted bid)) Bid_already_decrypted ;;
  let cts := [toBytes32 (encryptedBidAmount bid)] in
  require (checkSignatures cts abiEncodedClearValue decryptionProof)
          FHE_invalid_signatures ;;
  decrypted ← abi_decode_uint32 abiEncodedClearValue ;
  let bid' :=
    {| bidder := bidder bid;
       encryptedBidAmount := encryptedBidAmount bid;
       timestamp := timestamp bid;
       isDecrypted := true;
       decryptedBidAmount := decrypted |} in
  let raised := highestBidAmount auction <? decrypted in
  let auction' :=
    {| nftTokenId := nftTokenId auction;
       startTime := startTime auction;
       endTime := endTime auction;
       highestBidder :=
         if raised then msg_sender env else highestBidder auction;
       highestBidAmount :=
         if raised then decrypted else highestBidAmount auction;
       isActive := isActive auction;
       bids := <[msg_sender env := bid']> (bids auction);
       bidders := bidders auction |} in
  Ok ({| auctions := <[auctionId := auction']> (auctions s);
         auctionIds := auctionIds s |},
      [Emit (BidDecrypted auctionId (msg_sender env) decrypted)]).

Definition finalizeAuction (s : State) (env : Env) (auctionId : string)
  : result (State * list Effect) :=
  require (auctionExists s auctionId) Auction_does_not_exist ;;
  require (endTime (auctionOf s auctionId) <? block_timestamp env)
          Auction_not_ended ;;
  require (isActive (auctionOf s auctionId)) Auction_already_finalized ;;
  let auction := auctionOf s auctionId in
  require (negb (highestBidder auction =? 0)) No_valid_bids ;;
  let auction' :=
    {| nftTokenId := nftTokenId auction;
       startTime := startTime auction;
       endTime := endTime auction;
       highestBidder := highestBidder auction;
       highestBidAmount := highestBidAmount auction;
       isActive := false;
       bids := bids auction;
       bidders := bidders auction |} in
  Ok ({| auctions := <[auctionId := auction']> (auctions s);
         auctionIds := auctionIds s |},
      [Emit (AuctionFinalized auctionId (highestBidder auction)
                              (highestBidAmount auction))]).

(** *** Views *)

Definition getAuctionDetails (s : State) (auctionId : string)
  : result (string * uint256 * uint256 * address * uint32 * bool) :=
  require (auctionExists s auctionId) Auction_does_not_exist ;;
  let auction := auctionOf s auctionId in
  Ok (nftTokenId auction, startTime auction, endTime auction,
      highestBidder auction, highestBidAmount auction, isActive auction).

Definition getBid (s : State) (auctionId : string) (who : address)
  : result (euint32 * uint256 * bool * uint32) :=
  require (auctionExists s auctionId) Auction_does_not_exist ;;
  let bid := bidOf (auctionOf s auctionId) who in
  Ok (encryptedBidAmount bid, timestamp bid, isDecrypted bid,
      decryptedBidAmount bid).

Definition getAllAuctionIds (s : State) : result (list string) :=
  Ok (auctionIds s).

Definition getAllBidders (s : State) (auctionId : string)
  : result (list address) :=
  require (auctionExists s auctionId) Auction_does_not_exist ;;
  Ok (bidders (auctionOf s auctionId)).

(** *** Transactions and runs *)

Inductive Call :=
| CreateAuction (auctionId nftTokenId : string) (startTime endTime : uint256)
| PlaceBid (auctionId : string) (encryptedBidAmount : externalEuint32)
           (inputProof : bytes)
| DecryptBid (auctionId : string) (abiEncodedClearValue decryptionProof : bytes)
| FinalizeAuction (auctionId : string).

Definition call (s : State) (env : Env) (c : Call)
  : result (State * list Effect) :=
  match c with
  | CreateAuction i n st en => createAuction s env i n st en
  | PlaceBid i h p => placeBid s env i h p
  | DecryptBid i v p => decryptBid s env i v p
  | FinalizeAuction i => finalizeAuction s env i
  end.

(** A transaction: the state after it (unchanged when it reverts). *)
Definition step (s : State) (tx : Env * Call) : State :=
  match call s (fst tx) (snd tx) with
  | Ok (s', _) => s'
  | Err _ => s
  end.

Definition eventsOf (effs : list Effect) : list Event :=
  omap (λ e, match e with Emit ev => Some ev | _ => None end) effs.

(** The contract's own events that a transaction leaves in the log, in the
    order of its [emit] statements (none when it reverts).  What the FHE
    library logs during the call is not part of it. *)
Definition emitted (s : State) (tx : Env * Call) : list Event :=
  match call s (fst tx) (snd tx) with
  | Ok (_, effs) => eventsOf effs
  | Err _ => []
  end.

Fixpoint run (s : State) (txs : list (Env * Call)) : State :=
  match txs with
  | [] => s
  | tx :: txs' => run (step s tx) txs'
  end.

Fixpoint log (s : State) (txs : list (Env * Call)) : list Event :=
  match txs with
  | [] => []
  | tx :: txs' => emitted s tx ++ log (step s tx) txs'
  end.

Inductive reachable : State → Prop :=
| reach_init : reachable init
| reach_step s tx : reachable s → reachable (step s tx).

End Contract.

(** ** The writes of a committed transaction *)

(** The state a committed transaction writes, as a function of the state
    before it. *)
Definition created (s : State) (i n : string) (st en : Z) : State :=
  mkState
    (<[i := mkAuction n st en 0 0 true (bids (auctionOf s i)) []]> (auctions s))
    (auctionIds s ++ [i]).

Definition placed (s : State) (env : Env) (i : string) (c : Z) : State :=
  let a := auctionOf s i in
  let who := msg_sender env in
  mkState
    (<[i := mkAuction (nftTokenId a) (startTime a) (endTime a)
             (highestBidder a) (highestBidAmount a) (isActive a)
             (<[who := mkBid who c (block_timestamp env) false 0]> (bids a))
             (bidders a ++ [who])]>
       (auctions s))
    (auctionIds s).

Definition revealed (s : State) (env : Env) (i : string) (d : Z) : State :=
  let a := auctionOf s i in
  let who := msg_sender env in
  let b := bidOf a who in
  mkState
    (<[i := mkAuction (nftTokenId a) (startTime a) (endTime a)
             (if highestBidAmount a <? d then who else highestBidder a)
             (if highestBidAmount a <? d then d else highestBidAmount a)
             (isActive a)
             (<[who := mkBid (bidder b) (encryptedBidAmount b) (timestamp b) true d]>
                (bids a))
             (bidders a)]>
       (auctions s))
    (auctionIds s).

Definition finalized (s : State) (i : string) : State :=
  let a := auctionOf s i in
  mkState
    (<[i := mkAuction (nftTokenId a) (startTime a) (endTime a)
             (highestBidder a) (highestBidAmount a) false
             (bids a) (bidders a)]>
       (auctions s))
    (auctionIds s).

(** ** The log, read back *)

(** The successful reveals of auction [i], oldest first: (bidder, amount). *)
Definition revealsOf (i : string) (evs : list Event) : list (Z * Z) :=
  omap (λ e, match e with
             | BidDecrypted j who v => if decide (j = i) then Some (who, v) else None
             | _ => None
             end) evs.

(** The bidders whose [placeBid] on auction [i] committed, oldest first. *)
Definition placedOf (i : string) (evs : list Event) : list Z :=
  omap (λ e, match e with
             | BidPlaced j who _ => if decide (j = i) then Some who else None
             | _ => None
             end) evs.

(** The update rule of [decryptBid], lines 112-115, on the pair
    (highestBidder, highestBidAmount). *)
Definition track (best r : Z * Z) : Z * Z :=
  if best.2 <? r.2 then r else best.

Definition highest (a : Auction) : Z * Z :=
  (highestBidder a, highestBidAmount a).

(** ** The invariant of the storage *)

(** What holds of every slot of [auctions] in every state the contract can
    be in. *)
Record wfAuction (a : Auction) : Prop := {
  (** a slot that passes the first [require] of [createAuction] holds no
      bids and no winner *)
  wf_fresh :
    nftTokenId a = "" →
    highestBidder a = 0 ∧ highestBidAmount a = 0 ∧ bidders a = [] ∧
    ∀ who, bidOf a who = zeroBid;
  wf_amount : 0 ≤ highestBidAmount a < 2 ^ 32;
  wf_winner : highestBidder a ≠ 0 → 0 < highestBidAmount a;
  wf_final : nftTokenId a ≠ "" → isActive a = false → 0 < highestBidAmount a;
  wf_bidders : ∀ who, who ∈ bidders a ↔ encryptedBidAmount (bidOf a who) ≠ 0;
  wf_nodup : NoDup (bidders a);
  wf_unplaced :
    ∀ who, encryptedBidAmount (bidOf a who) = 0 →
           bidder (bidOf a who) = 0 ∧ timestamp (bidOf a who) = 0;
  wf_unrevealed :
    ∀ who, isDecrypted (bidOf a who) = false → decryptedBidAmount (bidOf a who) = 0
}.

Definition WF (s : State) : Prop := ∀ i, wfAuction (auctionOf s i).

(** ** The opening verifier *)

(** Modelled from the spec: the opening verifier accepts a clear value only
    as the true opening of the stored ciphertext.  The zero handle is the
    library's uninitialised value and stands for no ciphertext, so a verifier
    of that kind accepts nothing for it.  The library's source is not part of
    the repository; the property is a hypothesis where it is used. *)
Definition rejectsUninitialized (fhe : FHE) : Prop :=
  ∀ clear proof, checkSignatures [toBytes32 0] clear proof = false.

(** ** Unknown identifiers *)

(** An identifier is unknown when no [createAuction] stored it, or when the
    slot it names has an empty token (the contract's own test). *)
Definition unknownId (s : State) (i : string) : Prop :=
  i ∉ auctionIds s ∨ auctionExists s i = false.

(** ** A test double of the FHE library, and a scenario *)

(** [abi.encode(uint32(v))]: one 32-byte big-endian word. *)
Definition byte_of (z : Z) : Byte.byte :=
  match Byte.of_N (Z.to_N z) with
  | Some b => b
  | None => Byte.x00
  end.

Fixpoint be_bytes (n : nat) (v : Z) : bytes :=
  match n with
  | O => []
  | S n' => be_bytes n' (v / 256) ++ [byte_of (v mod 256)]
  end.

Definition abi_encode_uint32 (v : Z) : bytes := be_bytes 32 v.

Module Mock.

(** The handle of a bid of [v] is [1000 + v].  An input is accepted with
    any non-empty proof; an opening is accepted when the clear value is
    the one the handle stands for.  Handles below 1000, the uninitialised
    handle among them, have no opening. *)
Definition handleOf (v : Z) : Z := 1000 + v.

Definition fhe : FHE := {|
  fromExternal := λ _ h proof,
    match proof with
    | [] => None
    | _ => Some h
    end;
  checkSignatures := λ cts clear _,
    match cts with
    | [h] => (1000 <=? h) && (be_value (take 32 clear) =? h - 1000)
    | _ => false
    end
|}.

Definition inputProof : bytes := [Byte.x01].

(** The round trip of the specification: auction A1 with window
    [100, 200]; X bids 50 and Y bids 80 inside it. *)
Definition owner : Z := 1.
Definition X : Z := 11.
Definition Y : Z := 22.
Definition stranger : Z := 33.

Definition bidding : list (Env * Call) :=
  [ (mkEnv owner 100, CreateAuction "A1" "nft-1" 100 200);
    (mkEnv X 101, PlaceBid "A1" (handleOf 50) inputProof);
    (mkEnv Y 102, PlaceBid "A1" (handleOf 80) inputProof) ].

Definition revealX : Env * Call :=
  (mkEnv X 201, DecryptBid "A1" (abi_encode_uint32 50) []).
Definition revealY : Env * Call :=
  (mkEnv Y 202, DecryptBid "A1" (abi_encode_uint32 80) []).
Definition finalize : Env * Call :=
  (mkEnv owner 203, FinalizeAuction "A1").

Definition roundTrip : list (Env * Call) :=
  bidding ++ [revealX; revealY; finalize].

(** Y reveals only after the auction was finalised on X's bid. *)
Definition lateReveal : list (Env * Call) :=
  bidding ++ [revealX; finalize].

(** One bidder, whose bid is 0. *)
Definition zeroBidding : list (Env * Call) :=
  [ (mkEnv owner 100, CreateAuction "A1" "nft-1" 100 200);
    (mkEnv X 101, PlaceBid "A1" (handleOf 0) inputProof);
    (mkEnv X 201, DecryptBid "A1" (abi_encode_uint32 0) []) ].



End Mock.

(** ** More of the log, and the clock *)

(** The identifiers of the [AuctionCreated] events, oldest first. *)
Definition createdOf (evs : list Event) : list string :=
  omap (λ e, match e with
             | AuctionCreated j _ _ _ => Some j
             | _ => None
             end) evs.

(** The [AuctionFinalized] events of auction [i]: (winner, winningBid). *)
Definition finalizedOf (i : string) (evs : list Event) : list (Z * Z) :=
  omap (λ e, match e with
             | AuctionFinalized j w m => if decide (j = i) then Some (w, m) else None
             | _ => None
             end) evs.

(** The auction a call names. *)
Definition targetOf (c : Call) : string :=
  match c with
  | CreateAuction i _ _ _ => i
  | PlaceBid i _ _ => i
  | DecryptBid i _ _ => i
  | FinalizeAuction i => i
  end.

(** [block.timestamp] never decreases from one transaction to the next:
    [chronological t txs] holds when the timestamps of [txs] are in
    non-decreasing order and none is before [t]. *)
Fixpoint chronological (t : Z) (txs : list (Env * Call)) : bool :=
  match txs with
  | [] => true
  | tx :: txs' =>
      (t <=? block_timestamp tx.1) && chronological (block_timestamp tx.1) txs'
  end.

(** The timestamp of the last transaction of [txs] ([t] when there is none). *)
Fixpoint clockAfter (t : Z) (txs : list (Env * Call)) : Z :=
  match txs with
  | [] => t
  | tx :: txs' => clockAfter (block_timestamp tx.1) txs'
  end.

Section Histories.
Context {fhe : FHE}.

(** [history t s evs]: the contract is in state [s] with log [evs] after
    transactions mined in chronological order, the last one at time [t]
    (any [t] before the first one). *)
Inductive history : Z → State → list Event → Prop :=
| hist_init t : history t init []
| hist_step t s evs tx :
    history t s evs →
    t ≤ block_timestamp tx.1 →
    history (block_timestamp tx.1) (step s tx) (evs ++ emitted s tx).

End Histories.

(** ** More invariants of the storage *)

(** The window of an existing auction, the stored bids and the revealed
    amounts. *)
Record wfBids (a : Auction) : Prop := {
  wb_window : nftTokenId a ≠ "" → startTime a < endTime a;
  wb_stored :
    ∀ who, encryptedBidAmount (bidOf a who) ≠ 0 →
           nftTokenId a ≠ "" ∧ bidder (bidOf a who) = who ∧
           startTime a ≤ timestamp (bidOf a who) ≤ endTime a;
  wb_revealed :
    ∀ who, isDecrypted (bidOf a who) = true →
           nftTokenId a ≠ "" ∧
           0 ≤ decryptedBidAmount (bidOf a who) ≤ highestBidAmount a
}.

(** The clock against the storage of auction [a]: reveals and finalisation
    happen after [endTime], bids not after the current time. *)
Record clockInv (t : Z) (a : Auction) : Prop := {
  ck_reveal : ∀ who, isDecrypted (bidOf a who) = true → endTime a < t;
  ck_final : nftTokenId a ≠ "" → isActive a = false → endTime a < t;
  ck_bid : ∀ who, encryptedBidAmount (bidOf a who) ≠ 0 → timestamp (bidOf a who) ≤ t
}.

(** The reveals in the log against the storage of auction [a]. *)
Record revealInv (a : Auction) (rs : list (Z * Z)) : Prop := {
  rv_revealers : ∀ who, isDecrypted (bidOf a who) = true ↔ who ∈ rs.*1;
  rv_amount : ∀ w d, (w, d) ∈ rs → decryptedBidAmount (bidOf a w) = d;
  rv_nodup : NoDup rs.*1;
  rv_winner :
    0 < highestBidAmount a →
    isDecrypted (bidOf a (highestBidder a)) = true ∧
    decryptedBidAmount (bidOf a (highestBidder a)) = highestBidAmount a
}.

(** The [AuctionFinalized] events in the log against the storage of
    auction [a]. *)
Record finalInv (a : Auction) (fs : list (Z * Z)) : Prop := {
  fi_active : nftTokenId a ≠ "" → (isActive a = true ↔ fs = []);
  fi_fresh : nftTokenId a = "" → fs = [];
  fi_once : (length fs ≤ 1)%nat;
  fi_winner : ∀ w m, (w, m) ∈ fs → w ≠ 0 ∧ 0 < m ≤ highestBidAmount a
}.

(** ** The example contract of the README *)

(** The contract [ArtAuction] shown in the README: bids are pushed on an
    array and [revealHighestBid] scans it.  [TFHE.decrypt] is the library's
    and is a parameter. *)
Module Readme.

Record Bid := mkBid {
  encryptedAmount : Z;
  bidder : Z
}.

(** [bids.push(Bid({encryptedAmount: .., bidder: msg.sender}))] *)
Definition placeBid (bids : list Bid) (sender : Z) (encryptedBidAmount : Z)
  : list Bid :=
  bids ++ [mkBid encryptedBidAmount sender].

(** The body of the [for] loop, on the locals (highestBid, highestBidder). *)
Definition scan (decrypt : Z → Z) (locals : Z * Z) (b : Bid) : Z * Z :=
  let decryptedBid := decrypt (encryptedAmount b) in
  if locals.1 <? decryptedBid then (decryptedBid, bidder b) else locals.

(** [revealHighestBid()]: the locals start at 0 and at the zero address. *)
Definition revealHighestBid (decrypt : Z → Z) (bids : list Bid) : Z :=
  (fold_left (scan decrypt) bids (0, 0)).2.

End Readme.

(** * Lemmas *)

(** ** Reading the storage after a write *)

Section Storage.
Context {fhe : FHE}.

Lemma auctionOf_insert s ids i a j :
  auctionOf (mkState (<[i := a]> (auctions s)) ids) j
  = if decide (i = j) then a else auctionOf s j.
Proof. unfold auctionOf; simpl. apply lookup_total_insert. Qed.

Lemma bidOf_insert n st en hb ha act a bs w b who :
  bidOf (mkAuction n st en hb ha act (<[w := b]> (bids a)) bs) who
  = if decide (w = who) then b else bidOf a who.
Proof. unfold bidOf; simpl. apply lookup_total_insert. Qed.

Lemma auctionOf_init i : auctionOf init i = zeroAuction.
Proof. unfold auctionOf, init; simpl. by rewrite lookup_total_empty. Qed.

Lemma bidOf_zero who : bidOf zeroAuction who = zeroBid.
Proof. unfold bidOf, zeroAuction; simpl. by rewrite lookup_total_empty. Qed.

Lemma bytes_length_0 (x : string) : (bytes_length x =? 0) = true ↔ x = "".
Proof.
  unfold bytes_length. rewrite Z.eqb_eq.
  destruct x; simpl; [tauto|]. split; [lia | discriminate].
Qed.

Lemma bytes_length_pos (x : string) : (0 <? bytes_length x) = true ↔ x ≠ "".
Proof.
  unfold bytes_length. rewrite Z.ltb_lt.
  destruct x; simpl; [split; [lia | congruence]|]. split; [discriminate | lia].
Qed.

Lemma auctionExists_true s i :
  auctionExists s i = true ↔ nftTokenId (auctionOf s i) ≠ "".
Proof. apply bytes_length_pos. Qed.

Lemma auctionExists_false s i :
  auctionExists s i = false ↔ nftTokenId (auctionOf s i) = "".
Proof.
  rewrite <- not_true_iff_false, auctionExists_true.
  destruct (decide (nftTokenId (auctionOf s i) = "")); tauto.
Qed.

End Storage.

(** ** What a committed transaction did *)

(** Splits the goal along the guards of a transaction, in source order. *)
Ltac next_guard :=
  match goal with
  | H : context [require ?c _] |- _ =>
      destruct c eqn:?; cbn [require mbind result_bind] in H
  | H : context [orRevert ?o _] |- _ =>
      destruct o eqn:?; cbn [orRevert mbind result_bind] in H
  | H : context [mbind _ (abi_decode_uint32 ?d)] |- _ =>
      destruct (abi_decode_uint32 d) eqn:?; cbn [mbind result_bind] in H
  end.

Ltac guards := repeat next_guard; try discriminate.

(** Turns the boolean guards that passed or failed into propositions. *)
Ltac reflect_guards :=
  repeat match goal with
  | H : auctionExists _ _ = true |- _ => apply auctionExists_true in H
  | H : auctionExists _ _ = false |- _ => apply auctionExists_false in H
  | H : (bytes_length _ =? 0) = true |- _ => apply bytes_length_0 in H
  | H : isInitialized _ = _ |- _ => unfold isInitialized in H
  | H : negb _ = true |- _ => apply negb_true_iff in H
  | H : negb _ = false |- _ => apply negb_false_iff in H
  | H : (_ && _) = true |- _ => apply andb_true_iff in H as [? ?]
  | H : (_ =? _) = true |- _ => apply Z.eqb_eq in H
  | H : (_ =? _) = false |- _ => apply Z.eqb_neq in H
  | H : (_ <? _) = true |- _ => apply Z.ltb_lt in H
  | H : (_ <? _) = false |- _ => apply Z.ltb_ge in H
  | H : (_ <=? _) = true |- _ => apply Z.leb_le in H
  | H : (_ <=? _) = false |- _ => apply Z.leb_gt in H
  end.

Section Committed.
Context {fhe : FHE}.

Lemma auctionOngoing_Ok s env i :
  auctionOngoing s env i = Ok tt ↔
  nftTokenId (auctionOf s i) ≠ "" ∧
  startTime (auctionOf s i) ≤ block_timestamp env ≤ endTime (auctionOf s i) ∧
  isActive (auctionOf s i) = true.
Proof.
  unfold auctionOngoing. rewrite <- auctionExists_true.
  destruct (auctionExists s i); cbn; [|intuition discriminate].
  destruct (_ && _) eqn:E; cbn.
  - apply andb_true_iff in E as [?%Z.leb_le ?%Z.leb_le].
    destruct (isActive _); cbn; intuition (try discriminate; try lia).
  - apply andb_false_iff in E as [?%Z.leb_gt | ?%Z.leb_gt];
      intuition (try discriminate; try lia).
Qed.

Lemma createAuction_Ok s env i n st en s' effs :
  createAuction s env i n st en = Ok (s', effs) →
  nftTokenId (auctionOf s i) = "" ∧ block_timestamp env ≤ st ∧ st < en ∧
  s' = created s i n st en ∧
  effs = [Emit (AuctionCreated i n st en)].
Proof.
  unfold createAuction. intros H. guards.
  injection H as <- <-. reflect_guards. done.
Qed.

Lemma placeBid_Ok s env i h p s' effs :
  placeBid s env i h p = Ok (s', effs) →
  let a := auctionOf s i in
  let who := msg_sender env in
  ∃ c,
    auctionOngoing s env i = Ok tt ∧
    fromExternal who h p = Some c ∧ c ≠ 0 ∧
    encryptedBidAmount (bidOf a who) = 0 ∧
    s' = placed s env i c ∧
    effs = [AllowThis c; MakePubliclyDecryptable c; Emit (BidPlaced i who c)].
Proof.
  unfold placeBid. intros H.
  destruct (auctionOngoing s env i) as [[]|] eqn:Hon; cbn in H; [|discriminate].
  guards. injection H as <- <-. reflect_guards.
  eexists. done.
Qed.

Lemma decryptBid_Ok s env i v p s' effs :
  decryptBid s env i v p = Ok (s', effs) →
  let a := auctionOf s i in
  let who := msg_sender env in
  let b := bidOf a who in
  ∃ d,
    nftTokenId a ≠ "" ∧ endTime a < block_timestamp env ∧
    isDecrypted b = false ∧
    checkSignatures [toBytes32 (encryptedBidAmount b)] v p = true ∧
    abi_decode_uint32 v = Ok d ∧
    s' = revealed s env i d ∧
    effs = [Emit (BidDecrypted i who d)].
Proof.
  unfold decryptBid. intros H. guards. injection H as <- <-. reflect_guards.
  eexists. done.
Qed.

Lemma finalizeAuction_Ok s env i s' effs :
  finalizeAuction s env i = Ok (s', effs) →
  let a := auctionOf s i in
  nftTokenId a ≠ "" ∧ endTime a < block_timestamp env ∧
  isActive a = true ∧ highestBidder a ≠ 0 ∧
  s' = finalized s i ∧
  effs = [Emit (AuctionFinalized i (highestBidder a) (highestBidAmount a))].
Proof.
  unfold finalizeAuction. intros H. guards. injection H as <- <-. reflect_guards.
  done.
Qed.

End Committed.

(** ** Decoded amounts fit in 32 bits *)

Lemma be_value_from_nonneg (bs : bytes) (acc : Z) :
  0 ≤ acc →
  0 ≤ fold_left (λ acc b, acc * 256 + Z.of_N (Byte.to_N b)) bs acc.
Proof.
  revert acc. induction bs as [|b bs IH]; intros acc Hacc; simpl; [done|].
  apply IH. lia.
Qed.

Lemma abi_decode_uint32_range (data : bytes) (v : Z) :
  abi_decode_uint32 data = Ok v → 0 ≤ v < 2 ^ 32.
Proof.
  unfold abi_decode_uint32. intros H.
  destruct (_ <? 32); [discriminate|].
  destruct (be_value (take 32 data) <? 2 ^ 32) eqn:E; [|discriminate].
  injection H as <-. apply Z.ltb_lt in E. split; [|done].
  by apply be_value_from_nonneg.
Qed.

Lemma abi_decode_uint32_Err (data : bytes) (r : Revert) :
  abi_decode_uint32 data = Err r → r = Abi_decode_error.
Proof.
  unfold abi_decode_uint32.
  destruct (_ <? 32); [congruence|]. destruct (_ <? 2 ^ 32); congruence.
Qed.

(** ** The invariant is kept *)

Lemma wf_zeroAuction : wfAuction zeroAuction.
Proof.
  split; try (intros who); rewrite ?bidOf_zero; simpl; try done.
  - split; [by intros ?%elem_of_nil | done].
  - constructor.
Qed.

Lemma WF_init : WF init.
Proof. intros i. rewrite auctionOf_init. apply wf_zeroAuction. Qed.

Section Invariant.
Context {fhe : FHE}.

Lemma createAuction_WF s env i n st en s' effs :
  WF s → createAuction s env i n st en = Ok (s', effs) → WF s'.
Proof.
  intros Hwf (Hfresh & _ & _ & -> & _)%createAuction_Ok j.
  unfold created. rewrite auctionOf_insert. case_decide as Hij; [subst j|apply Hwf].
  destruct (wf_fresh _ (Hwf i) Hfresh) as (_ & _ & _ & Hz).
  assert (Hb : ∀ who n' st' en' hb ha act bs,
             bidOf (mkAuction n' st' en' hb ha act (bids (auctionOf s i)) bs) who
             = zeroBid) by (intros; apply Hz).
  split; simpl; intros; rewrite ?Hb; simpl; try done.
  - split; [by intros ?%elem_of_nil | done].
  - constructor.
Qed.

Lemma placeBid_WF s env i h p s' effs :
  WF s → placeBid s env i h p = Ok (s', effs) → WF s'.
Proof.
  intros Hwf (c & Hon & _ & Hc & Hnone & -> & _)%placeBid_Ok j.
  unfold placed. rewrite auctionOf_insert. case_decide as Hij; [subst j|apply Hwf].
  apply auctionOngoing_Ok in Hon as (Hex & _ & Hact).
  pose proof (Hwf i) as Ha.
  split; simpl.
  - done.
  - apply Ha.
  - apply Ha.
  - congruence.
  - intros who. rewrite bidOf_insert, elem_of_app, list_elem_of_singleton.
    case_decide as Hw; simpl.
    + subst who. tauto.
    + rewrite (wf_bidders _ Ha who). unfold bidOf. intuition congruence.
  - apply NoDup_app. split_and!; [apply Ha| |apply NoDup_singleton].
    intros x Hx ->%list_elem_of_singleton.
    by apply (wf_bidders _ Ha) in Hx.
  - intros who. rewrite bidOf_insert.
    case_decide; simpl; [done|]. apply (wf_unplaced _ Ha).
  - intros who. rewrite bidOf_insert.
    case_decide; simpl; [done|]. apply (wf_unrevealed _ Ha).
Qed.

Lemma decryptBid_WF s env i v p s' effs :
  WF s → decryptBid s env i v p = Ok (s', effs) → WF s'.
Proof.
  intros Hwf (d & Hex & _ & _ & _ & Hd%abi_decode_uint32_range & -> & _)%decryptBid_Ok j.
  unfold revealed. rewrite auctionOf_insert. case_decide as Hij; [subst j|apply Hwf].
  pose proof (Hwf i) as Ha. pose proof (wf_amount _ Ha) as Hrange.
  split; simpl.
  - done.
  - destruct (_ <? d); lia.
  - destruct (_ <? d) eqn:E; [apply Z.ltb_lt in E; lia | apply Ha].
  - intros _ Hact. pose proof (wf_final _ Ha Hex Hact).
    destruct (_ <? d) eqn:E; [apply Z.ltb_lt in E; lia | done].
  - intros who. rewrite bidOf_insert, (wf_bidders _ Ha who).
    case_decide; [subst who|]; done.
  - apply Ha.
  - intros who. rewrite bidOf_insert.
    case_decide; [subst who|]; simpl; apply (wf_unplaced _ Ha).
  - intros who. rewrite bidOf_insert.
    case_decide; [done|]. apply (wf_unrevealed _ Ha).
Qed.

Lemma finalizeAuction_WF s env i s' effs :
  WF s → finalizeAuction s env i = Ok (s', effs) → WF s'.
Proof.
  intros Hwf (Hex & _ & _ & Hhb & -> & _)%finalizeAuction_Ok j.
  unfold finalized. rewrite auctionOf_insert. case_decide as Hij; [subst j|apply Hwf].
  pose proof (Hwf i) as Ha.
  split; simpl; try apply Ha. intros _ _. by apply (wf_winner _ Ha).
Qed.

Lemma step_WF s tx : WF s → WF (step s tx).
Proof.
  intros Hwf. unfold step, call. destruct tx as [env []]; simpl.
  - destruct (createAuction _ _ _ _ _ _) as [[s' effs]|] eqn:E; [|done].
    eapply createAuction_WF; eauto.
  - destruct (placeBid _ _ _ _ _) as [[s' effs]|] eqn:E; [|done].
    eapply placeBid_WF; eauto.
  - destruct (decryptBid _ _ _ _ _) as [[s' effs]|] eqn:E; [|done].
    eapply decryptBid_WF; eauto.
  - destruct (finalizeAuction _ _ _) as [[s' effs]|] eqn:E; [|done].
    eapply finalizeAuction_WF; eauto.
Qed.

Lemma run_WF txs s : WF s → WF (run s txs).
Proof.
  revert s. induction txs as [|tx txs IH]; intros s Hwf; simpl; [done|].
  by apply IH, step_WF.
Qed.

Lemma reachable_WF s : reachable s → WF s.
Proof. induction 1; [apply WF_init | by apply step_WF]. Qed.

Lemma reachable_run s txs : reachable s → reachable (run s txs).
Proof.
  revert s. induction txs as [|tx txs IH]; intros s Hs; simpl; [done|].
  apply IH. by constructor.
Qed.

Lemma run_app s txs1 txs2 : run s (txs1 ++ txs2) = run (run s txs1) txs2.
Proof. revert s. induction txs1 as [|tx txs1 IH]; intros s; simpl; [done|]. apply IH. Qed.

Lemma reachable_iff_run s : reachable s ↔ ∃ txs, s = run init txs.
Proof.
  split.
  - induction 1 as [|s tx _ [txs ->]]; [by exists []|].
    exists (txs ++ [tx]). by rewrite run_app.
  - intros [txs ->]. apply reachable_run. constructor.
Qed.

End Invariant.

(** ** One transaction, case by case *)

Section Steps.
Context {fhe : FHE}.

(** Case analysis on a transaction: it reverts and changes nothing, or it
    is one of the four calls with its guards passed. *)
Lemma step_cases (P : State → Env * Call → State → list Event → Prop) :
  (∀ s tx r, call s tx.1 tx.2 = Err r → P s tx s []) →
  (∀ s env i n st en,
      nftTokenId (auctionOf s i) = "" → block_timestamp env ≤ st → st < en →
      P s (env, CreateAuction i n st en) (created s i n st en)
        [AuctionCreated i n st en]) →
  (∀ s env i h p c,
      auctionOngoing s env i = Ok tt →
      fromExternal (msg_sender env) h p = Some c → c ≠ 0 →
      encryptedBidAmount (bidOf (auctionOf s i) (msg_sender env)) = 0 →
      P s (env, PlaceBid i h p) (placed s env i c)
        [BidPlaced i (msg_sender env) c]) →
  (∀ s env i v p d,
      nftTokenId (auctionOf s i) ≠ "" →
      endTime (auctionOf s i) < block_timestamp env →
      isDecrypted (bidOf (auctionOf s i) (msg_sender env)) = false →
      checkSignatures
        [toBytes32 (encryptedBidAmount (bidOf (auctionOf s i) (msg_sender env)))]
        v p = true →
      abi_decode_uint32 v = Ok d →
      P s (env, DecryptBid i v p) (revealed s env i d)
        [BidDecrypted i (msg_sender env) d]) →
  (∀ s env i,
      nftTokenId (auctionOf s i) ≠ "" →
      endTime (auctionOf s i) < block_timestamp env →
      isActive (auctionOf s i) = true →
      highestBidder (auctionOf s i) ≠ 0 →
      P s (env, FinalizeAuction i) (finalized s i)
        [AuctionFinalized i (highestBidder (auctionOf s i))
                          (highestBidAmount (auctionOf s i))]) →
  ∀ s tx, P s tx (step s tx) (emitted s tx).
Proof.
  intros Herr Hcreate Hplace Hreveal Hfinal s [env c].
  unfold step, emitted.
  destruct (call s (env, c).1 (env, c).2) as [[s' effs]|r] eqn:E;
    [|by eapply Herr].
  destruct c as [i n st en|i h p|i v p|i]; simpl in E.
  - apply createAuction_Ok in E as (? & ? & ? & -> & ->). by apply Hcreate.
  - apply placeBid_Ok in E as (c & ? & ? & ? & ? & -> & ->). by apply Hplace.
  - apply decryptBid_Ok in E as (d & ? & ? & ? & ? & ? & -> & ->).
    by apply Hreveal.
  - apply finalizeAuction_Ok in E as (? & ? & ? & ? & -> & ->). by apply Hfinal.
Qed.

End Steps.

(** ** Runs and their logs *)

Section Traces.
Context {fhe : FHE}.

Lemma log_app s txs1 txs2 :
  log s (txs1 ++ txs2) = log s txs1 ++ log (run s txs1) txs2.
Proof.
  revert s. induction txs1 as [|tx txs1 IH]; intros s; simpl; [done|].
  by rewrite IH, app_assoc.
Qed.

Lemma revealsOf_app i evs1 evs2 :
  revealsOf i (evs1 ++ evs2) = revealsOf i evs1 ++ revealsOf i evs2.
Proof. apply omap_app. Qed.

Lemma placedOf_app i evs1 evs2 :
  placedOf i (evs1 ++ evs2) = placedOf i evs1 ++ placedOf i evs2.
Proof. apply omap_app. Qed.

(** A transaction moves the pair of auction [j] by the reveals of [j] it
    logs, and by nothing else. *)
Lemma step_highest j s tx :
  WF s →
  highest (auctionOf (step s tx) j)
  = fold_left track (revealsOf j (emitted s tx)) (highest (auctionOf s j)).
Proof.
  revert s tx.
  apply (step_cases (λ s tx s' evs,
    WF s → highest (auctionOf s' j)
           = fold_left track (revealsOf j evs) (highest (auctionOf s j))));
    [done|..]; intros s env i; intros; unfold created, placed, revealed, finalized;
    rewrite auctionOf_insert; simpl; case_decide as Hij; subst; try done.
  - match goal with Hwf : WF _, Hf : nftTokenId _ = "" |- _ =>
      destruct (wf_fresh _ (Hwf j) Hf) as (Hb & Ha & _) end.
    unfold highest; simpl. by rewrite Hb, Ha.
  - unfold highest, track; simpl. by destruct (_ <? d).
Qed.

Lemma run_highest j txs s :
  WF s →
  highest (auctionOf (run s txs) j)
  = fold_left track (revealsOf j (log s txs)) (highest (auctionOf s j)).
Proof.
  revert s. induction txs as [|tx txs IH]; intros s Hwf; simpl; [done|].
  rewrite IH by (by apply step_WF).
  by rewrite revealsOf_app, fold_left_app, step_highest.
Qed.

(** A transaction appends to [bidders] of auction [j] the bidders whose
    [placeBid] on [j] it logs. *)
Lemma step_bidders j s tx :
  WF s →
  bidders (auctionOf (step s tx) j)
  = bidders (auctionOf s j) ++ placedOf j (emitted s tx).
Proof.
  revert s tx.
  apply (step_cases (λ s tx s' evs,
    WF s → bidders (auctionOf s' j) = bidders (auctionOf s j) ++ placedOf j evs));
    [by intros; rewrite app_nil_r|..]; intros s env i; intros;
    unfold created, placed, revealed, finalized;
    rewrite auctionOf_insert; simpl; case_decide as Hij; subst;
    rewrite ?app_nil_r; try done.
  match goal with Hwf : WF _, Hf : nftTokenId _ = "" |- _ =>
    destruct (wf_fresh _ (Hwf j) Hf) as (_ & _ & Hb & _) end.
  by rewrite Hb.
Qed.

Lemma run_bidders j txs s :
  WF s →
  bidders (auctionOf (run s txs) j)
  = bidders (auctionOf s j) ++ placedOf j (log s txs).
Proof.
  revert s. induction txs as [|tx txs IH]; intros s Hwf; simpl;
    [by rewrite app_nil_r|].
  rewrite IH by (by apply step_WF).
  by rewrite placedOf_app, step_bidders, app_assoc.
Qed.

(** Every logged reveal carries an amount that fits in 32 bits. *)
Lemma emitted_reveal_range j s tx r :
  r ∈ revealsOf j (emitted s tx) → 0 ≤ r.2 < 2 ^ 32.
Proof.
  revert s tx.
  apply (step_cases (λ s tx s' evs, r ∈ revealsOf j evs → 0 ≤ r.2 < 2 ^ 32));
    simpl; intros; try case_decide; try by (exfalso; eapply elem_of_nil).
  match goal with H : r ∈ [_] |- _ => apply list_elem_of_singleton in H as -> end.
  simpl. by eapply abi_decode_uint32_range.
Qed.

(** The log is faithful: a transaction logs a reveal of auction [j] exactly
    when it is a [decryptBid] on [j] that commits, and the entry carries the
    caller and the decoded clear value. *)
Lemma emitted_reveal_inv j s tx r :
  r ∈ revealsOf j (emitted s tx) →
  ∃ v p s' effs,
    tx.2 = DecryptBid j v p ∧
    decryptBid s tx.1 j v p = Ok (s', effs) ∧
    abi_decode_uint32 v = Ok r.2 ∧
    r.1 = msg_sender tx.1.
Proof.
  destruct tx as [env c]. unfold emitted. simpl.
  destruct (call s env c) as [[s' effs]|] eqn:E; [|by intros ?%elem_of_nil].
  destruct c as [i n st en|i h p|i v p|i]; simpl in E.
  - apply createAuction_Ok in E as (_ & _ & _ & _ & ->). by intros ?%elem_of_nil.
  - apply placeBid_Ok in E as (c & _ & _ & _ & _ & _ & ->). by intros ?%elem_of_nil.
  - pose proof E as (d & _ & _ & _ & _ & Hd & _ & ->)%decryptBid_Ok.
    simpl. case_decide; [subst i|by intros ?%elem_of_nil].
    intros ->%list_elem_of_singleton. by exists v, p, s', [Emit (BidDecrypted j (msg_sender env) d)].
  - apply finalizeAuction_Ok in E as (_ & _ & _ & _ & _ & ->). by intros ?%elem_of_nil.
Qed.

Lemma emitted_reveal j s env v p s' effs :
  decryptBid s env j v p = Ok (s', effs) →
  ∃ d, abi_decode_uint32 v = Ok d ∧
       revealsOf j (emitted s (env, DecryptBid j v p)) = [(msg_sender env, d)].
Proof.
  intros E. unfold emitted. simpl. rewrite E.
  apply decryptBid_Ok in E as (d & _ & _ & _ & _ & Hd & _ & ->).
  exists d. split; [done|]. simpl. by case_decide.
Qed.

Lemma log_reveal_range j txs s r :
  r ∈ revealsOf j (log s txs) → 0 ≤ r.2 < 2 ^ 32.
Proof.
  revert s. induction txs as [|tx txs IH]; intros s; simpl.
  - by intros ?%elem_of_nil.
  - rewrite revealsOf_app, elem_of_app. intros [H|H].
    + by eapply emitted_reveal_range.
    + by eapply IH.
Qed.

End Traces.

(** ** The tracker on a list of reveals *)

(** Folding [track] over reveals: the amount kept bounds every amount seen;
    either nothing exceeded the start, or the pair kept is the first reveal
    that reaches the final amount. *)
Lemma fold_track_spec (rs : list (Z * Z)) (best : Z * Z) :
  let res := fold_left track rs best in
  (∀ r, r ∈ rs → r.2 ≤ res.2) ∧
  best.2 ≤ res.2 ∧
  ((res = best ∧ ∀ r, r ∈ rs → r.2 ≤ best.2) ∨
   (best.2 < res.2 ∧
    ∃ pre post, rs = pre ++ res :: post ∧ ∀ r, r ∈ pre → r.2 < res.2)).
Proof.
  induction rs as [|r rs IH] using rev_ind; simpl.
  - split_and!; [by intros ? ?%elem_of_nil | lia | left].
    split; [done | by intros ? ?%elem_of_nil].
  - rewrite fold_left_app; simpl.
    destruct IH as (Hall & Hge & Hcase).
    set (res := fold_left track rs best) in *.
    destruct (res.2 <? r.2) eqn:E;
      [assert (Ht : track res r = r) by (unfold track; by rewrite E)
      |assert (Ht : track res r = res) by (unfold track; by rewrite E)];
      rewrite Ht; clear Ht.
    + apply Z.ltb_lt in E. split_and!.
      * intros x [Hx| ->%list_elem_of_singleton]%elem_of_app; [|lia].
        specialize (Hall x Hx). lia.
      * lia.
      * right. split; [lia|]. exists rs, []. split; [done|].
        intros x Hx. specialize (Hall x Hx). lia.
    + apply Z.ltb_ge in E. split_and!.
      * intros x [Hx| ->%list_elem_of_singleton]%elem_of_app; [by apply Hall | done].
      * done.
      * destruct Hcase as [[Heq Hle]|[Hlt (pre & post & Hrs & Hpre)]].
        -- left. split; [done|].
           intros x [Hx| ->%list_elem_of_singleton]%elem_of_app; [by apply Hle|].
           by rewrite <- Heq.
        -- right. split; [done|]. exists pre, (post ++ [r]).
           split; [|done]. by rewrite Hrs, <- app_assoc.
Qed.

(** The pair of an auction after a history from the deployed state: the
    amount bounds every reveal, and either no reveal was positive and the
    pair is still (0, 0), or the pair is the first reveal that reaches the
    amount. *)
Lemma highest_from_init {fhe : FHE} (txs : list (Env * Call)) (i : string) :
  let a := auctionOf (run init txs) i in
  let rs := revealsOf i (log init txs) in
  (∀ r, r ∈ rs → r.2 ≤ highestBidAmount a) ∧
  ((highest a = (0, 0) ∧ ∀ r, r ∈ rs → r.2 ≤ 0) ∨
   (0 < highestBidAmount a ∧
    ∃ pre post, rs = pre ++ highest a :: post ∧
                ∀ r, r ∈ pre → r.2 < highestBidAmount a)).
Proof.
  intros a rs.
  pose proof (run_highest i txs init WF_init) as Hrun.
  rewrite auctionOf_init in Hrun. fold a rs in Hrun.
  destruct (fold_track_spec rs (highest zeroAuction)) as (Hall & _ & Hcase).
  rewrite <- Hrun in Hall, Hcase. by split.
Qed.

(** ** What no transaction changes *)

Section Frames.
Context {fhe : FHE}.

(** An existing auction keeps its token, its window, and, once finalised,
    its finalised flag. *)
Lemma step_frozen j s tx :
  nftTokenId (auctionOf s j) ≠ "" →
  nftTokenId (auctionOf (step s tx) j) = nftTokenId (auctionOf s j) ∧
  startTime (auctionOf (step s tx) j) = startTime (auctionOf s j) ∧
  endTime (auctionOf (step s tx) j) = endTime (auctionOf s j) ∧
  (isActive (auctionOf s j) = false → isActive (auctionOf (step s tx) j) = false).
Proof.
  revert s tx.
  apply (step_cases (λ s tx s' evs,
    nftTokenId (auctionOf s j) ≠ "" →
    nftTokenId (auctionOf s' j) = nftTokenId (auctionOf s j) ∧
    startTime (auctionOf s' j) = startTime (auctionOf s j) ∧
    endTime (auctionOf s' j) = endTime (auctionOf s j) ∧
    (isActive (auctionOf s j) = false → isActive (auctionOf s' j) = false)));
    [done|..]; intros s env i; intros;
    unfold created, placed, revealed, finalized;
    rewrite auctionOf_insert; case_decide as Hij; subst; simpl; done.
Qed.

Lemma run_frozen j txs s :
  nftTokenId (auctionOf s j) ≠ "" →
  nftTokenId (auctionOf (run s txs) j) = nftTokenId (auctionOf s j) ∧
  startTime (auctionOf (run s txs) j) = startTime (auctionOf s j) ∧
  endTime (auctionOf (run s txs) j) = endTime (auctionOf s j) ∧
  (isActive (auctionOf s j) = false → isActive (auctionOf (run s txs) j) = false).
Proof.
  revert s. induction txs as [|tx txs IH]; intros s Hex; simpl; [done|].
  destruct (step_frozen j s tx Hex) as (Hn & Hs & He & Ha).
  destruct (IH (step s tx)) as (Hn' & Hs' & He' & Ha'); [congruence|].
  split_and!; try congruence. auto.
Qed.

(** A stored bid keeps its bidder, its ciphertext handle and its
    timestamp through every transaction. *)
Lemma step_ciphertext j who s tx :
  encryptedBidAmount (bidOf (auctionOf s j) who) ≠ 0 →
  bidder (bidOf (auctionOf (step s tx) j) who) = bidder (bidOf (auctionOf s j) who) ∧
  encryptedBidAmount (bidOf (auctionOf (step s tx) j) who)
    = encryptedBidAmount (bidOf (auctionOf s j) who) ∧
  timestamp (bidOf (auctionOf (step s tx) j) who)
    = timestamp (bidOf (auctionOf s j) who).
Proof.
  revert s tx.
  apply (step_cases (λ s tx s' evs,
    encryptedBidAmount (bidOf (auctionOf s j) who) ≠ 0 →
    bidder (bidOf (auctionOf s' j) who) = bidder (bidOf (auctionOf s j) who) ∧
    encryptedBidAmount (bidOf (auctionOf s' j) who)
      = encryptedBidAmount (bidOf (auctionOf s j) who) ∧
    timestamp (bidOf (auctionOf s' j) who)
      = timestamp (bidOf (auctionOf s j) who)));
    [done|..]; intros s env i; intros;
    unfold created, placed, revealed, finalized;
    rewrite auctionOf_insert; case_decide as Hij; subst; try done;
    rewrite bidOf_insert; case_decide; subst; done.
Qed.

(** Under a verifier that rejects the uninitialised handle, an address
    without a stored bid has the zero record. *)
Lemma step_unplaced_zero s tx :
  rejectsUninitialized fhe →
  (∀ j who, encryptedBidAmount (bidOf (auctionOf s j) who) = 0 →
            bidOf (auctionOf s j) who = zeroBid) →
  ∀ j who, encryptedBidAmount (bidOf (auctionOf (step s tx) j) who) = 0 →
           bidOf (auctionOf (step s tx) j) who = zeroBid.
Proof.
  intros Hsound. revert s tx.
  apply (step_cases (λ s tx s' evs,
    (∀ j who, encryptedBidAmount (bidOf (auctionOf s j) who) = 0 →
              bidOf (auctionOf s j) who = zeroBid) →
    ∀ j who, encryptedBidAmount (bidOf (auctionOf s' j) who) = 0 →
             bidOf (auctionOf s' j) who = zeroBid)); [done|..].
  - intros s env i n st en _ _ _ IH j who. unfold created.
    rewrite auctionOf_insert. case_decide; subst; apply IH.
  - intros s env i h p c _ _ Hc _ IH j who. unfold placed.
    rewrite auctionOf_insert. case_decide; subst; [|apply IH].
    rewrite bidOf_insert. case_decide; subst; [done|apply IH].
  - intros s env i v p d _ _ _ Hsig _ IH j who. unfold revealed.
    rewrite auctionOf_insert. case_decide; subst; [|apply IH].
    rewrite bidOf_insert. case_decide; subst; [|apply IH].
    simpl. intros Hz. rewrite Hz, Hsound in Hsig. discriminate.
  - intros s env i _ _ _ _ IH j who. unfold finalized.
    rewrite auctionOf_insert. case_decide; subst; apply IH.
Qed.

Lemma reachable_unplaced_zero s :
  rejectsUninitialized fhe → reachable s →
  ∀ j who, encryptedBidAmount (bidOf (auctionOf s j) who) = 0 →
           bidOf (auctionOf s j) who = zeroBid.
Proof.
  intros Hsound. induction 1 as [|s tx Hs IH].
  - intros j who _. by rewrite auctionOf_init, bidOf_zero.
  - by apply step_unplaced_zero.
Qed.

(** An identifier that [createAuction] never stored reads as the zero
    auction. *)
Lemma step_never_created s tx :
  (∀ j, j ∉ auctionIds s → auctionOf s j = zeroAuction) →
  ∀ j, j ∉ auctionIds (step s tx) → auctionOf (step s tx) j = zeroAuction.
Proof.
  revert s tx.
  apply (step_cases (λ s tx s' evs,
    (∀ j, j ∉ auctionIds s → auctionOf s j = zeroAuction) →
    ∀ j, j ∉ auctionIds s' → auctionOf s' j = zeroAuction)); [done|..].
  - intros s env i n st en _ _ _ IH j. unfold created; simpl.
    rewrite auctionOf_insert, elem_of_app, list_elem_of_singleton.
    intros Hj. case_decide; subst; [tauto|]. apply IH. tauto.
  - intros s env i h p c (Hex & _)%auctionOngoing_Ok _ _ _ IH j.
    unfold placed; simpl. rewrite auctionOf_insert. intros Hj.
    case_decide; subst; [|by apply IH]. by rewrite (IH j Hj) in Hex.
  - intros s env i v p d Hex _ _ _ _ IH j.
    unfold revealed; simpl. rewrite auctionOf_insert. intros Hj.
    case_decide; subst; [|by apply IH]. by rewrite (IH j Hj) in Hex.
  - intros s env i Hex _ _ _ IH j.
    unfold finalized; simpl. rewrite auctionOf_insert. intros Hj.
    case_decide; subst; [|by apply IH]. by rewrite (IH j Hj) in Hex.
Qed.

Lemma reachable_never_created s :
  reachable s → ∀ j, j ∉ auctionIds s → auctionOf s j = zeroAuction.
Proof.
  induction 1 as [|s tx Hs IH]; [intros; apply auctionOf_init|].
  by apply step_never_created.
Qed.

End Frames.

(** ** The scenario, evaluated *)

Lemma Mock_rejectsUninitialized : rejectsUninitialized Mock.fhe.
Proof. intros clear proof. reflexivity. Qed.

Example abi_round_trip : abi_decode_uint32 (abi_encode_uint32 80) = Ok 80.
Proof. vm_compute. reflexivity. Qed.

Example roundTrip_result :
  getAuctionDetails (run (fhe := Mock.fhe) init Mock.roundTrip) "A1"
  = Ok ("nft-1", 100, 200, Mock.Y, 80, false).
Proof. vm_compute. reflexivity. Qed.

Example roundTrip_log :
  log (fhe := Mock.fhe) init Mock.roundTrip
  = [ AuctionCreated "A1" "nft-1" 100 200;
      BidPlaced "A1" Mock.X 1050; BidPlaced "A1" Mock.Y 1080;
      BidDecrypted "A1" Mock.X 50; BidDecrypted "A1" Mock.Y 80;
      AuctionFinalized "A1" Mock.Y 80 ].
Proof. vm_compute. reflexivity. Qed.

(** * The claims *)

(** ** C1: the highest bid is the first maximum of the reveals *)

(** C1, counterexample.  One successful reveal, of amount 0 by X: the
    maximum of the revealed amounts is 0 and X is the first (and only)
    reveal that reaches it, yet [highestBidder] is still the zero address. *)
Lemma zero_reveal_leaves_no_bidder :
  let s := run (fhe := Mock.fhe) init Mock.zeroBidding in
  revealsOf "A1" (log (fhe := Mock.fhe) init Mock.zeroBidding) = [(Mock.X, 0)] ∧
  highestBidAmount (auctionOf s "A1") = 0 ∧
  highestBidder (auctionOf s "A1") = 0 ∧
  highestBidder (auctionOf s "A1") ≠ Mock.X.
Proof. vm_compute. split_and!; try reflexivity. discriminate. Qed.

(** C1, as amended.  After any history, with [rs] the successful reveals of
    the auction oldest first: [highestBidAmount] bounds every revealed
    amount and, when there is a reveal, is one of them (it is their
    maximum); when it is positive, [highestBidder] is the bidder of the
    first reveal that reaches it; when it is 0, [highestBidder] is the zero
    address. *)
Theorem highest_is_first_maximum {fhe : FHE} (txs : list (Env * Call)) (i : string) :
  let s := run init txs in
  let rs := revealsOf i (log init txs) in
  let m := highestBidAmount (auctionOf s i) in
  (∀ r, r ∈ rs → r.2 ≤ m) ∧
  (rs ≠ [] → ∃ r, r ∈ rs ∧ r.2 = m) ∧
  (0 < m → ∃ pre post,
      rs = pre ++ (highestBidder (auctionOf s i), m) :: post ∧
      ∀ r, r ∈ pre → r.2 < m) ∧
  (m = 0 → highestBidder (auctionOf s i) = 0).
Proof.
  intros s rs m.
  destruct (highest_from_init txs i) as (Hall & Hcase).
  fold s rs m in Hall, Hcase.
  assert (Hrange : ∀ r, r ∈ rs → 0 ≤ r.2 < 2 ^ 32)
    by (intros r Hr; by eapply log_reveal_range).
  clearbody rs. split_and!.
  - done.
  - intros Hne. destruct Hcase as [[Heq Hle]|[_ (pre & post & Hrs & _)]].
    + destruct rs as [|r rs']; [done|]. exists r. split; [by left|].
      assert (r ∈ r :: rs') as Hin by by left.
      pose proof (Hrange r Hin).
      specialize (Hle r Hin). injection Heq as _ Hm. lia.
    + eexists. split; [rewrite Hrs; apply elem_of_app; right; by left | done].
  - intros Hpos. destruct Hcase as [[Heq _]|[_ Hdec]]; [|done].
    injection Heq as _ Hm. lia.
  - intros Hzero. destruct Hcase as [[Heq _]|[Hlt _]]; [|lia].
    by injection Heq as Hb _.
Qed.

(** ** C2: a reveal by a caller without a stored bid *)

(** C2, counterexample.  A1 exists and has ended; the stranger has no bid in
    it.  The reveal fails, but on the signature check of the library, an
    error of class InvalidProof: [decryptBid] has no check that the bid
    exists and no NotFound for it. *)
Lemma reveal_without_bid_is_not_NotFound :
  let s := run (fhe := Mock.fhe) init Mock.bidding in
  let env := mkEnv Mock.stranger 201 in
  auctionExists s "A1" = true ∧
  endTime (auctionOf s "A1") < block_timestamp env ∧
  encryptedBidAmount (bidOf (auctionOf s "A1") Mock.stranger) = 0 ∧
  decryptBid (fhe := Mock.fhe) s env "A1" (abi_encode_uint32 5) []
    = Err FHE_invalid_signatures ∧
  kindOf FHE_invalid_signatures ≠ Taxonomy.NotFound.
Proof. vm_compute. split_and!; try reflexivity. discriminate. Qed.

(** C2, as amended.  On an existing, ended auction, a reveal by a caller
    without a stored bid never fails with NotFound.  The opening is checked
    against the uninitialised handle; under a verifier that rejects it, the
    call fails with the library's signature error (class InvalidProof) and
    the state is unchanged. *)
Theorem reveal_without_bid {fhe : FHE} s env i v p :
  auctionExists s i = true →
  endTime (auctionOf s i) < block_timestamp env →
  encryptedBidAmount (bidOf (auctionOf s i) (msg_sender env)) = 0 →
  (∀ r, decryptBid s env i v p = Err r → kindOf r ≠ Taxonomy.NotFound) ∧
  (reachable s → rejectsUninitialized fhe →
   decryptBid s env i v p = Err FHE_invalid_signatures ∧
   kindOf FHE_invalid_signatures = Taxonomy.InvalidProof ∧
   step s (env, DecryptBid i v p) = s).
Proof.
  intros Hex Hend Hnone. apply Z.ltb_lt in Hend.
  split.
  - unfold decryptBid. rewrite Hex, Hend. cbn [require mbind result_bind].
    intros r H. guards; injection H as <-; try discriminate.
    match goal with H : abi_decode_uint32 _ = Err _ |- _ =>
      apply abi_decode_uint32_Err in H as -> end.
    discriminate.
  - intros Hs Hsound.
    pose proof (reachable_unplaced_zero s Hsound Hs i _ Hnone) as Hzero.
    assert (H : decryptBid s env i v p = Err FHE_invalid_signatures).
    { unfold decryptBid. rewrite Hex, Hend, Hzero. simpl.
      by rewrite (Hsound v p). }
    split_and!; [done|done|]. unfold step; simpl. by rewrite H.
Qed.

Lemma reveal_without_bid_witness :
  let s := run (fhe := Mock.fhe) init Mock.bidding in
  let env := mkEnv Mock.stranger 201 in
  decryptBid (fhe := Mock.fhe) s env "A1" (abi_encode_uint32 5) []
    = Err FHE_invalid_signatures ∧
  step (fhe := Mock.fhe) s (env, DecryptBid "A1" (abi_encode_uint32 5) []) = s.
Proof.
  intros s env.
  destruct (reveal_without_bid (fhe := Mock.fhe) s env "A1" (abi_encode_uint32 5) [])
    as [_ H]; [reflexivity | reflexivity | reflexivity |].
  destruct H as (H1 & _ & H2);
    [apply reachable_run; constructor | apply Mock_rejectsUninitialized |].
  split; [exact H1 | exact H2].
Defined.

(** ** C3: the time window of a new auction *)

(** C3, counterexample.  [startTime] equal to the current time, 100: the
    call commits and the auction is stored. *)
Lemma create_at_current_time_commits :
  let env := mkEnv Mock.owner 100 in
  createAuction init env "A1" "nft-1" 100 200
    = Ok (created init "A1" "nft-1" 100 200,
          [Emit (AuctionCreated "A1" "nft-1" 100 200)]) ∧
  getAuctionDetails (created init "A1" "nft-1" 100 200) "A1"
    = Ok ("nft-1", 100, 200, 0, 0, true).
Proof. split; vm_compute; reflexivity. Qed.

(** C3, as amended.  On an identifier that is not taken: when [startTime]
    is before the current time or [endTime] is not after [startTime], the
    call fails with an error of class InvalidTimeWindow and the state is
    unchanged; otherwise, [startTime] equal to the current time included,
    it commits. *)
Theorem createAuction_time_window {fhe : FHE} s env i n st en :
  auctionExists s i = false →
  (st < block_timestamp env ∨ en ≤ st →
   ∃ r, createAuction s env i n st en = Err r ∧
        kindOf r = Taxonomy.InvalidTimeWindow ∧
        step s (env, CreateAuction i n st en) = s) ∧
  (block_timestamp env ≤ st ∧ st < en →
   createAuction s env i n st en
   = Ok (created s i n st en, [Emit (AuctionCreated i n st en)])).
Proof.
  intros Hfree%auctionExists_false.
  assert (Hlen : (bytes_length (nftTokenId (auctionOf s i)) =? 0) = true)
    by by apply bytes_length_0.
  split.
  - intros Hbad.
    assert (∃ r, createAuction s env i n st en = Err r ∧
                 kindOf r = Taxonomy.InvalidTimeWindow) as (r & Hr & Hk).
    { unfold createAuction. rewrite Hlen. cbn [require mbind result_bind].
      destruct (block_timestamp env <=? st) eqn:E1; cbn [require mbind result_bind];
        [|by eexists].
      destruct (st <? en) eqn:E2; cbn [require mbind result_bind]; [|by eexists].
      apply Z.leb_le in E1. apply Z.ltb_lt in E2. lia. }
    exists r. split_and!; [done|done|].
    unfold step; simpl. by rewrite Hr.
  - intros [H1%Z.leb_le H2%Z.ltb_lt].
    unfold createAuction, created. by rewrite Hlen, H1, H2.
Qed.

Lemma createAuction_time_window_witness :
  (∃ r, createAuction init (mkEnv Mock.owner 100) "A1" "nft-1" 99 200 = Err r ∧
        kindOf r = Taxonomy.InvalidTimeWindow) ∧
  (∃ r, createAuction init (mkEnv Mock.owner 100) "A1" "nft-1" 150 150 = Err r ∧
        kindOf r = Taxonomy.InvalidTimeWindow).
Proof.
  split.
  - destruct (createAuction_time_window (fhe := Mock.fhe) init
                (mkEnv Mock.owner 100) "A1" "nft-1" 99 200)
      as [H _]; [reflexivity|].
    destruct H as (r & Hr & Hk & _); [left; simpl; lia|]. by exists r.
  - destruct (createAuction_time_window (fhe := Mock.fhe) init
                (mkEnv Mock.owner 100) "A1" "nft-1" 150 150)
      as [H _]; [reflexivity|].
    destruct H as (r & Hr & Hk & _); [right; lia|]. by exists r.
Defined.

(** ** C4: a reveal after finalisation *)

(** C4, counterexample.  A1 is finalised on X's bid of 50.  Y's reveal of 80
    then commits and replaces the pair: [decryptBid] does not look at
    [isActive]. *)
Lemma late_reveal_replaces_winner :
  let s := run (fhe := Mock.fhe) init Mock.lateReveal in
  let s' := step (fhe := Mock.fhe) s Mock.revealY in
  isActive (auctionOf s "A1") = false ∧
  highest (auctionOf s "A1") = (Mock.X, 50) ∧
  emitted (fhe := Mock.fhe) s Mock.revealY = [BidDecrypted "A1" Mock.Y 80] ∧
  highest (auctionOf s' "A1") = (Mock.Y, 80).
Proof. vm_compute. split_and!; reflexivity. Qed.

(** C4, as amended.  A reveal that commits on a finalised auction marks the
    caller's bid as decrypted with the revealed amount and leaves every other
    bid, the token, the window, the finalised flag, the bidder list and every
    other auction as they were.  The pair (highestBidder, highestBidAmount)
    is unchanged when the amount does not exceed [highestBidAmount], and
    becomes (caller, amount) when it does. *)
Theorem late_reveal_effect {fhe : FHE} s env i v p s' effs :
  isActive (auctionOf s i) = false →
  decryptBid s env i v p = Ok (s', effs) →
  let a := auctionOf s i in
  let a' := auctionOf s' i in
  let who := msg_sender env in
  ∃ d, abi_decode_uint32 v = Ok d ∧
    bidOf a' who
      = mkBid (bidder (bidOf a who)) (encryptedBidAmount (bidOf a who))
              (timestamp (bidOf a who)) true d ∧
    (∀ w, w ≠ who → bidOf a' w = bidOf a w) ∧
    nftTokenId a' = nftTokenId a ∧ startTime a' = startTime a ∧
    endTime a' = endTime a ∧ isActive a' = false ∧ bidders a' = bidders a ∧
    (∀ j, j ≠ i → auctionOf s' j = auctionOf s j) ∧
    auctionIds s' = auctionIds s ∧
    (d ≤ highestBidAmount a → highest a' = highest a) ∧
    (highestBidAmount a < d → highest a' = (who, d)).
Proof.
  intros Hfin (d & _ & _ & _ & _ & Hd & -> & _)%decryptBid_Ok a a' who.
  exists d. subst a a' who. unfold revealed. rewrite auctionOf_insert.
  destruct (decide (i = i)) as [_|]; [|done]. unfold highest. simpl.
  split_and!; try done.
  - rewrite bidOf_insert. by case_decide.
  - intros w Hw. rewrite bidOf_insert. by case_decide.
  - intros j Hj. rewrite auctionOf_insert. by case_decide.
  - intros Hle. apply Z.ltb_ge in Hle. by rewrite Hle.
  - intros Hlt. apply Z.ltb_lt in Hlt. by rewrite Hlt.
Qed.

Lemma late_reveal_effect_witness :
  let s := run (fhe := Mock.fhe) init Mock.lateReveal in
  ∃ d, abi_decode_uint32 (abi_encode_uint32 80) = Ok d ∧
       (highestBidAmount (auctionOf s "A1") < d →
        highest (auctionOf (step (fhe := Mock.fhe) s Mock.revealY) "A1") = (Mock.Y, d)).
Proof.
  intros s.
  destruct (late_reveal_effect (fhe := Mock.fhe) s (mkEnv Mock.Y 202) "A1"
              (abi_encode_uint32 80) []
              (step (fhe := Mock.fhe) s Mock.revealY)
              [Emit (BidDecrypted "A1" Mock.Y 80)])
    as (d & Hd & _ & _ & _ & _ & _ & _ & _ & _ & _ & _ & Hraise);
    [vm_compute; reflexivity | vm_compute; reflexivity |].
  exists d. split; [exact Hd | exact Hraise].
Defined.

(** ** C5: the pair never regresses *)

(** C5.  In every reachable state and for every transaction, the
    [highestBidAmount] of every auction does not decrease; and when
    [highestBidder] changes, the amount has strictly increased, the
    transaction is a [decryptBid] on that auction whose opening passed the
    signature check, the new amount is the decoded clear value and the new
    bidder is the caller. *)
Theorem highest_never_regresses {fhe : FHE} s tx i :
  reachable s →
  let a := auctionOf s i in
  let a' := auctionOf (step s tx) i in
  highestBidAmount a ≤ highestBidAmount a' ∧
  (highestBidder a' ≠ highestBidder a →
   highestBidAmount a < highestBidAmount a' ∧
   ∃ v p, tx.2 = DecryptBid i v p ∧
     checkSignatures
       [toBytes32 (encryptedBidAmount (bidOf a (msg_sender tx.1)))] v p = true ∧
     abi_decode_uint32 v = Ok (highestBidAmount a') ∧
     highestBidder a' = msg_sender tx.1).
Proof.
  intros Hs%reachable_WF. simpl. revert s tx Hs.
  apply (step_cases (λ s tx s' evs,
    WF s →
    highestBidAmount (auctionOf s i) ≤ highestBidAmount (auctionOf s' i) ∧
    (highestBidder (auctionOf s' i) ≠ highestBidder (auctionOf s i) →
     highestBidAmount (auctionOf s i) < highestBidAmount (auctionOf s' i) ∧
     ∃ v p, tx.2 = DecryptBid i v p ∧
       checkSignatures
         [toBytes32 (encryptedBidAmount (bidOf (auctionOf s i) (msg_sender tx.1)))]
         v p = true ∧
       abi_decode_uint32 v = Ok (highestBidAmount (auctionOf s' i)) ∧
       highestBidder (auctionOf s' i) = msg_sender tx.1))).
  - intros s tx r _ _. split; [lia|done].
  - intros s env j n st en Hfresh _ _ Hwf. unfold created.
    rewrite auctionOf_insert. case_decide; subst; simpl; [|split; [lia|done]].
    destruct (wf_fresh _ (Hwf i) Hfresh) as (-> & -> & _). split; [lia|done].
  - intros s env j h p c _ _ _ _ _. unfold placed.
    rewrite auctionOf_insert. case_decide; subst; simpl; split; (lia || done).
  - intros s env j v p d _ _ _ Hsig Hd _. unfold revealed.
    rewrite auctionOf_insert. case_decide; subst; simpl; [|split; [lia|done]].
    destruct (_ <? d) eqn:E; [apply Z.ltb_lt in E|split; [lia|done]].
    split; [lia|]. intros _. split; [done|]. by exists v, p.
  - intros s env j _ _ _ _ _. unfold finalized.
    rewrite auctionOf_insert. case_decide; subst; simpl; split; (lia || done).
Qed.

Lemma highest_never_regresses_witness :
  let s := run (fhe := Mock.fhe) init (Mock.bidding ++ [Mock.revealX]) in
  highestBidAmount (auctionOf s "A1")
  ≤ highestBidAmount (auctionOf (step (fhe := Mock.fhe) s Mock.revealY) "A1").
Proof.
  intros s.
  apply (highest_never_regresses (fhe := Mock.fhe) s Mock.revealY "A1").
  apply reachable_run. constructor.
Defined.

(** ** C6: the failures of finalizeAuction *)

(** C6.  For an existing auction, after any history: [finalizeAuction]
    fails with "Auction not ended" while the current time is not past
    [endTime]; past it, on an auction not yet finalised whose
    [highestBidder] is unset, it fails with "No valid bids", which is the
    case in particular when no reveal with a positive amount has committed;
    and once one call has committed, every later call, whatever happened in
    between, fails with "Auction already finalized". *)
Theorem finalize_failures {fhe : FHE} (txs : list (Env * Call)) (i : string) :
  let s := run init txs in
  let a := auctionOf s i in
  auctionExists s i = true →
  (∀ env, block_timestamp env ≤ endTime a →
          finalizeAuction s env i = Err Auction_not_ended) ∧
  (∀ env, endTime a < block_timestamp env →
          isActive a = true → highestBidder a = 0 →
          finalizeAuction s env i = Err No_valid_bids) ∧
  (∀ env, endTime a < block_timestamp env →
          (∀ r, r ∈ revealsOf i (log init txs) → r.2 = 0) →
          finalizeAuction s env i = Err No_valid_bids) ∧
  (∀ env s1 effs,
      finalizeAuction s env i = Ok (s1, effs) →
      ∀ txs' env', block_timestamp env ≤ block_timestamp env' →
        finalizeAuction (run s1 txs') env' i = Err Auction_already_finalized).
Proof.
  intros s a Hex.
  assert (Hcode : ∀ env, endTime a < block_timestamp env →
            isActive a = true → highestBidder a = 0 →
            finalizeAuction s env i = Err No_valid_bids).
  { intros env Hend%Z.ltb_lt Hact Hnone. unfold finalizeAuction.
    fold a. by rewrite Hex, Hend, Hact, Hnone. }
  split_and!.
  - intros env Hend%Z.ltb_ge. unfold finalizeAuction. fold a.
    by rewrite Hex, Hend.
  - done.
  - intros env Hend Hzero.
    destruct (highest_from_init txs i) as (_ & [[Heq _]|[Hpos (pre & post & Hrs & _)]]);
      fold s in Heq || fold s in Hpos, Hrs.
    + fold a in Heq. injection Heq as Hb Hm. apply Hcode; [done| |done].
      destruct (isActive a) eqn:Hact; [done|].
      apply auctionExists_true in Hex.
      pose proof (wf_final _ (run_WF txs init WF_init i) Hex Hact) as Hfin.
      fold s a in Hfin. lia.
    + fold a in Hpos, Hrs. specialize (Hzero (highest a)).
      rewrite Hrs, elem_of_app, elem_of_cons in Hzero. simpl in Hzero.
      assert (highestBidAmount a = 0) by (apply Hzero; right; by left). lia.
  - intros env s1 effs (Hn & Hend & _ & _ & -> & _)%finalizeAuction_Ok txs' env' Hlater.
    fold a in Hn, Hend.
    set (s1 := finalized s i).
    assert (Ha1 : auctionOf s1 i
                  = mkAuction (nftTokenId a) (startTime a) (endTime a)
                      (highestBidder a) (highestBidAmount a) false
                      (bids a) (bidders a)).
    { unfold s1, finalized. rewrite auctionOf_insert. by case_decide. }
    destruct (run_frozen i txs' s1) as (Hn' & _ & He' & Hact').
    { by rewrite Ha1. }
    rewrite Ha1 in Hn', He', Hact'. simpl in Hn', He', Hact'.
    unfold finalizeAuction.
    assert (Hex' : auctionExists (run s1 txs') i = true)
      by (apply auctionExists_true; congruence).
    assert (Hend' : (endTime (auctionOf (run s1 txs') i) <? block_timestamp env') = true)
      by (apply Z.ltb_lt; lia).
    by rewrite Hex', Hend', Hact'.
Qed.

Lemma finalize_failures_witness :
  let s := run (fhe := Mock.fhe) init Mock.bidding in
  finalizeAuction s (mkEnv Mock.owner 200) "A1" = Err Auction_not_ended ∧
  finalizeAuction s (mkEnv Mock.owner 201) "A1" = Err No_valid_bids.
Proof.
  intros s.
  destruct (finalize_failures (fhe := Mock.fhe) Mock.bidding "A1")
    as (Hearly & Hnone & _); [reflexivity|].
  split.
  - apply Hearly. vm_compute. discriminate.
  - apply Hnone; vm_compute; reflexivity.
Defined.

Example second_finalize_fails :
  call (fhe := Mock.fhe) (run (fhe := Mock.fhe) init Mock.roundTrip)
       (mkEnv Mock.X 204) (FinalizeAuction "A1")
  = Err Auction_already_finalized.
Proof. vm_compute. reflexivity. Qed.

(** ** C7: one bid per bidder, written once *)

(** C7, counterexample.  X has a stored bid in A1.  A second [placeBid] by X
    after the window has closed fails on the modifier, with "Auction not
    active" (class InactiveWindow), not with DuplicateBid: the duplicate
    check is the last of the guards. *)
Lemma second_bid_after_window_is_not_duplicate :
  let s := run (fhe := Mock.fhe) init Mock.bidding in
  let env := mkEnv Mock.X 201 in
  encryptedBidAmount (bidOf (auctionOf s "A1") (msg_sender env)) = 1050 ∧
  placeBid (fhe := Mock.fhe) s env "A1" (Mock.handleOf 70) Mock.inputProof
    = Err Auction_not_active ∧
  kindOf Auction_not_active = Taxonomy.InactiveWindow ∧
  kindOf Auction_not_active ≠ Taxonomy.DuplicateBid.
Proof. vm_compute. split_and!; try reflexivity. discriminate. Qed.

Lemma auctionOngoing_Err {fhe : FHE} s env i r :
  auctionOngoing s env i = Err r →
  r = Auction_does_not_exist ∨ r = Auction_not_active.
Proof.
  unfold auctionOngoing.
  destruct (auctionExists s i); cbn [require mbind result_bind];
    [|intros [= <-]; by left].
  destruct (_ && _); cbn [require mbind result_bind]; [|intros [= <-]; by right].
  destruct (isActive _); cbn [require mbind result_bind]; [done|].
  intros [= <-]; by right.
Qed.

(** C7, as amended.  When the caller has a stored bid in the auction,
    [placeBid] fails and leaves the state, the stored bid with it,
    unchanged.  The failure is "Bid already placed" (DuplicateBid) whenever
    the call reaches that check, that is when the auction is ongoing and the
    encrypted input verifies; when the auction is not ongoing it is the
    failure of the modifier (InactiveWindow, or NotFound), and when the
    input does not verify it is of class InvalidCiphertext.  And no
    transaction of any kind changes the bidder, the ciphertext handle or the
    timestamp of a stored bid. *)
Theorem second_bid_rejected {fhe : FHE} s env i h p :
  encryptedBidAmount (bidOf (auctionOf s i) (msg_sender env)) ≠ 0 →
  (∃ r, placeBid s env i h p = Err r ∧
        (auctionOngoing s env i = Ok tt →
         (∃ c, fromExternal (msg_sender env) h p = Some c ∧ c ≠ 0) →
         r = Bid_already_placed ∧ kindOf r = Taxonomy.DuplicateBid) ∧
        (∀ r', auctionOngoing s env i = Err r' →
               r = r' ∧
               (kindOf r = Taxonomy.NotFound ∨ kindOf r = Taxonomy.InactiveWindow)) ∧
        (auctionOngoing s env i = Ok tt →
         fromExternal (msg_sender env) h p = None ∨
         fromExternal (msg_sender env) h p = Some 0 →
         kindOf r = Taxonomy.InvalidCiphertext)) ∧
  step s (env, PlaceBid i h p) = s ∧
  (∀ tx,
      let b := bidOf (auctionOf s i) (msg_sender env) in
      let b' := bidOf (auctionOf (step s tx) i) (msg_sender env) in
      bidder b' = bidder b ∧
      encryptedBidAmount b' = encryptedBidAmount b ∧
      timestamp b' = timestamp b).
Proof.
  intros Hbid.
  assert (Hfail : ∃ r, placeBid s env i h p = Err r ∧
            (auctionOngoing s env i = Ok tt →
             (∃ c, fromExternal (msg_sender env) h p = Some c ∧ c ≠ 0) →
             r = Bid_already_placed ∧ kindOf r = Taxonomy.DuplicateBid) ∧
            (∀ r', auctionOngoing s env i = Err r' →
                   r = r' ∧
                   (kindOf r = Taxonomy.NotFound ∨
                    kindOf r = Taxonomy.InactiveWindow)) ∧
            (auctionOngoing s env i = Ok tt →
             fromExternal (msg_sender env) h p = None ∨
             fromExternal (msg_sender env) h p = Some 0 →
             kindOf r = Taxonomy.InvalidCiphertext)).
  { destruct (placeBid s env i h p) as [[s' effs]|r] eqn:E.
    - apply placeBid_Ok in E as (c & _ & _ & _ & Hnone & _). done.
    - exists r. split; [done|]. split_and!.
      + intros Hon (c & Hc & Hne).
        apply Z.eqb_neq in Hne, Hbid.
        unfold placeBid, isInitialized in E. rewrite Hon, Hc in E.
        cbn [orRevert mbind result_bind] in E. rewrite Hne, Hbid in E.
        cbn [require negb mbind result_bind] in E. by injection E as <-.
      + intros r' Hon. unfold placeBid in E. rewrite Hon in E.
        cbn [mbind result_bind] in E. injection E as <-. split; [done|].
        destruct (auctionOngoing_Err s env i r' Hon) as [-> | ->];
          [by left | by right].
      + intros Hon Hbad. unfold placeBid, isInitialized in E. rewrite Hon in E.
        cbn [mbind result_bind] in E.
        destruct Hbad as [Hc|Hc]; rewrite Hc in E;
          cbn [orRevert require negb mbind result_bind Z.eqb] in E;
          by injection E as <-. }
  split_and!.
  - done.
  - destruct Hfail as (r & Hr & _). unfold step; simpl. by rewrite Hr.
  - intros tx. by apply step_ciphertext.
Qed.

Lemma second_bid_rejected_witness :
  let s := run (fhe := Mock.fhe) init Mock.bidding in
  step (fhe := Mock.fhe) s
       (mkEnv Mock.X 150, PlaceBid "A1" (Mock.handleOf 70) Mock.inputProof) = s.
Proof.
  intros s.
  apply (second_bid_rejected (fhe := Mock.fhe) s (mkEnv Mock.X 150) "A1"
           (Mock.handleOf 70) Mock.inputProof).
  vm_compute. discriminate.
Defined.

Example second_bid_is_duplicate :
  placeBid (fhe := Mock.fhe) (run (fhe := Mock.fhe) init Mock.bidding)
           (mkEnv Mock.X 150) "A1" (Mock.handleOf 70) Mock.inputProof
  = Err Bid_already_placed.
Proof. vm_compute. reflexivity. Qed.

(** ** C8: getBid for an address without a stored bid *)




(** ** C9: the bidder list *)

(** C9.  After any history, the [bidders] of an auction are the callers of
    the [placeBid] transactions that committed on it, in the order in which
    they committed; no address occurs twice; and an address is in the list
    exactly when it has a stored bid.  Every transaction appends to the
    list the bid it places, if any, and changes nothing else of it. *)
Theorem bidders_are_the_placed_bids {fhe : FHE} (txs : list (Env * Call)) (i : string) :
  let s := run init txs in
  let a := auctionOf s i in
  bidders a = placedOf i (log init txs) ∧
  NoDup (bidders a) ∧
  (∀ who, who ∈ bidders a ↔ encryptedBidAmount (bidOf a who) ≠ 0) ∧
  (∀ tx, bidders (auctionOf (step s tx) i) = bidders a ++ placedOf i (emitted s tx)).
Proof.
  intros s a.
  pose proof (run_WF txs init WF_init) as Hwf. fold s in Hwf.
  split_and!.
  - subst a s. rewrite run_bidders by apply WF_init.
    by rewrite auctionOf_init.
  - apply (wf_nodup _ (Hwf i)).
  - apply (wf_bidders _ (Hwf i)).
  - intros tx. by apply step_bidders.
Qed.

Example roundTrip_bidders :
  getAllBidders (run (fhe := Mock.fhe) init Mock.roundTrip) "A1"
  = Ok [Mock.X; Mock.Y].
Proof. vm_compute. reflexivity. Qed.

(** ** C10: views on an unknown identifier *)

(** C10.  In a reachable state, on an unknown identifier,
    [getAuctionDetails], [getBid] and [getAllBidders] fail with "Auction does
    not exist"; [getAllAuctionIds] returns the list in every state. *)
Theorem views_on_unknown_id {fhe : FHE} s i who :
  reachable s →
  unknownId s i →
  getAuctionDetails s i = Err Auction_does_not_exist ∧
  getBid s i who = Err Auction_does_not_exist ∧
  getAllBidders s i = Err Auction_does_not_exist ∧
  kindOf Auction_does_not_exist = Taxonomy.NotFound ∧
  ∀ s', getAllAuctionIds s' = Ok (auctionIds s').
Proof.
  intros Hs Hunknown.
  assert (Hex : auctionExists s i = false).
  { destruct Hunknown as [Hnew|]; [|done].
    apply auctionExists_false. by rewrite (reachable_never_created s Hs i Hnew). }
  unfold getAuctionDetails, getBid, getAllBidders. rewrite Hex.
  by cbn [require mbind result_bind].
Qed.

Lemma views_on_unknown_id_witness :
  getAuctionDetails (run (fhe := Mock.fhe) init Mock.roundTrip) "B2"
  = Err Auction_does_not_exist.
Proof.
  apply (views_on_unknown_id (fhe := Mock.fhe) _ "B2" Mock.stranger).
  - apply reachable_run. constructor.
  - left. vm_compute. intros H.
    repeat (apply elem_of_cons in H as [H|H]; [discriminate H|]).
    by apply elem_of_nil in H.
Defined.

(** * Further properties of the contract *)

(** ** createAuction *)

(** X1.  Once an auction exists, [createAuction] on its identifier fails
    with "Auction already exists" and changes nothing, whatever happened in
    between and whatever the arguments. *)
Theorem createAuction_taken {fhe : FHE} s i :
  auctionExists s i = true →
  ∀ txs env n st en,
    createAuction (run s txs) env i n st en = Err Auction_already_exists ∧
    step (run s txs) (env, CreateAuction i n st en) = run s txs.
Proof.
  intros Hex%auctionExists_true txs env n st en.
  destruct (run_frozen i txs s Hex) as (Hn & _).
  assert (H : createAuction (run s txs) env i n st en = Err Auction_already_exists).
  { unfold createAuction.
    destruct (bytes_length _ =? 0) eqn:E; [|done].
    apply bytes_length_0 in E. congruence. }
  split; [done|]. unfold step; simpl. by rewrite H.
Qed.

Lemma createAuction_taken_witness :
  let s := run (fhe := Mock.fhe) init (take 1 Mock.bidding) in
  createAuction (run (fhe := Mock.fhe) s (drop 1 Mock.roundTrip))
                (mkEnv Mock.owner 300) "A1" "nft-2" 400 500
  = Err Auction_already_exists.
Proof.
  intros s.
  apply (createAuction_taken (fhe := Mock.fhe) s "A1").
  vm_compute. reflexivity.
Defined.

(** X2.  An empty [nftTokenId] is accepted: the call commits and lists the
    identifier, but the auction does not exist for any other function, and
    the identifier can be created again, which lists it a second time. *)
Theorem createAuction_empty_token {fhe : FHE} s env i st en :
  auctionExists s i = false →
  block_timestamp env ≤ st → st < en →
  let s' := step s (env, CreateAuction i "" st en) in
  auctionIds s' = auctionIds s ++ [i] ∧
  auctionExists s' i = false ∧
  getAuctionDetails s' i = Err Auction_does_not_exist ∧
  ∀ env' n' st' en',
    block_timestamp env' ≤ st' → st' < en' →
    auctionIds (step s' (env', CreateAuction i n' st' en'))
    = auctionIds s ++ [i; i].
Proof.
  intros Hfree%auctionExists_false Hst%Z.leb_le Hen%Z.ltb_lt s'.
  assert (Hs' : s' = created s i "" st en).
  { subst s'. unfold step; simpl. unfold createAuction.
    apply bytes_length_0 in Hfree. by rewrite Hfree, Hst, Hen. }
  assert (Ha : auctionOf s' i
               = mkAuction "" st en 0 0 true (bids (auctionOf s i)) []).
  { rewrite Hs'. unfold created. rewrite auctionOf_insert. by case_decide. }
  assert (Hex : auctionExists s' i = false)
    by (apply auctionExists_false; by rewrite Ha).
  split_and!.
  - by rewrite Hs'.
  - done.
  - unfold getAuctionDetails. by rewrite Hex.
  - intros env' n' st' en' Hst'%Z.leb_le Hen'%Z.ltb_lt.
    unfold step; simpl. unfold createAuction.
    apply auctionExists_false, bytes_length_0 in Hex.
    rewrite Hex, Hst', Hen'. cbn [require mbind result_bind]. simpl.
    rewrite Hs'. simpl. by rewrite <- app_assoc.
Qed.

Lemma createAuction_empty_token_witness :
  let s' := step (fhe := Mock.fhe) init
                 (mkEnv Mock.owner 100, CreateAuction "A1" "" 100 200) in
  auctionIds s' = ["A1"] ∧ auctionExists s' "A1" = false.
Proof.
  destruct (createAuction_empty_token (fhe := Mock.fhe) init
              (mkEnv Mock.owner 100) "A1" 100 200)
    as (H1 & H2 & _); [reflexivity | simpl; lia | lia |].
  split; [exact H1 | exact H2].
Defined.

(** X3.  After any history, [auctionIds] lists the identifiers of the
    [AuctionCreated] events in log order; every existing auction is listed;
    and a transaction only ever appends to the list. *)
Theorem auctionIds_are_the_created {fhe : FHE} (txs : list (Env * Call)) (i : string) :
  let s := run init txs in
  auctionIds s = createdOf (log init txs) ∧
  (auctionExists s i = true → i ∈ auctionIds s) ∧
  (∀ tx, auctionIds (step s tx) = auctionIds s ++ createdOf (emitted s tx)).
Proof.
  assert (Hstep : ∀ s tx,
            auctionIds (step s tx) = auctionIds s ++ createdOf (emitted s tx)).
  { apply (step_cases (λ s tx s' evs,
      auctionIds s' = auctionIds s ++ createdOf evs));
      intros; simpl; by rewrite ?app_nil_r. }
  assert (Hrun : ∀ txs s,
            auctionIds (run s txs) = auctionIds s ++ createdOf (log s txs)).
  { clear txs. induction txs as [|tx txs IH]; intros s; simpl;
      [by rewrite app_nil_r|].
    unfold createdOf. rewrite omap_app. fold createdOf.
    by rewrite IH, Hstep, app_assoc. }
  intros s. split_and!.
  - subst s. by rewrite Hrun.
  - intros Hex%auctionExists_true.
    destruct (decide (i ∈ auctionIds s)) as [|Hnot]; [done|].
    assert (reachable s) as Hs by (apply reachable_run; constructor).
    by rewrite (reachable_never_created s Hs i Hnot) in Hex.
  - apply Hstep.
Qed.

(** ** placeBid *)

(** X4.  On an existing auction, [placeBid] fails with "Auction not active"
    and changes nothing when the current time is before [startTime] or
    after [endTime], or when the auction is finalised. *)
Theorem placeBid_outside_window {fhe : FHE} s env i h p :
  auctionExists s i = true →
  block_timestamp env < startTime (auctionOf s i) ∨
  endTime (auctionOf s i) < block_timestamp env ∨
  isActive (auctionOf s i) = false →
  placeBid s env i h p = Err Auction_not_active ∧
  step s (env, PlaceBid i h p) = s.
Proof.
  intros Hex Hout.
  assert (H : placeBid s env i h p = Err Auction_not_active).
  { unfold placeBid, auctionOngoing. rewrite Hex.
    cbn [require mbind result_bind].
    destruct (_ && _) eqn:E; cbn [require mbind result_bind]; [|done].
    apply andb_true_iff in E as [?%Z.leb_le ?%Z.leb_le].
    destruct Hout as [?|[?|Hfin]]; [lia|lia|]. by rewrite Hfin. }
  split; [done|]. unfold step; simpl. by rewrite H.
Qed.

Lemma placeBid_outside_window_witness :
  placeBid (fhe := Mock.fhe) (run (fhe := Mock.fhe) init Mock.bidding)
           (mkEnv Mock.stranger 201) "A1" (Mock.handleOf 90) Mock.inputProof
  = Err Auction_not_active.
Proof.
  apply (placeBid_outside_window (fhe := Mock.fhe)); [reflexivity|].
  right; left. vm_compute. reflexivity.
Defined.

(** X5.  A [placeBid] that commits stores the handle returned by the input
    verification, not zero, with the current time and not decrypted:
    [getBid] reads it back, the caller is appended to the bidders, the
    details of the auction and the bids of all other addresses are
    unchanged, and the handle is allowed and made publicly decryptable. *)
Theorem placeBid_then_getBid {fhe : FHE} s env i h p s' effs :
  placeBid s env i h p = Ok (s', effs) →
  ∃ c, fromExternal (msg_sender env) h p = Some c ∧ c ≠ 0 ∧
    startTime (auctionOf s i) ≤ block_timestamp env ≤ endTime (auctionOf s i) ∧
    getBid s' i (msg_sender env) = Ok (c, block_timestamp env, false, 0) ∧
    getAllBidders s' i = Ok (bidders (auctionOf s i) ++ [msg_sender env]) ∧
    getAuctionDetails s' i = getAuctionDetails s i ∧
    (∀ who, who ≠ msg_sender env → getBid s' i who = getBid s i who) ∧
    effs = [AllowThis c; MakePubliclyDecryptable c;
            Emit (BidPlaced i (msg_sender env) c)].
Proof.
  intros (c & Hon & Hc & Hne & _ & -> & ->)%placeBid_Ok.
  apply auctionOngoing_Ok in Hon as (Hex%auctionExists_true & Hwin & _).
  assert (Ha' : auctionOf (placed s env i c) i
                = mkAuction (nftTokenId (auctionOf s i)) (startTime (auctionOf s i))
                    (endTime (auctionOf s i)) (highestBidder (auctionOf s i))
                    (highestBidAmount (auctionOf s i)) (isActive (auctionOf s i))
                    (<[msg_sender env := mkBid (msg_sender env) c
                                           (block_timestamp env) false 0]>
                       (bids (auctionOf s i)))
                    (bidders (auctionOf s i) ++ [msg_sender env])).
  { unfold placed. rewrite auctionOf_insert. by case_decide. }
  assert (Hex' : auctionExists (placed s env i c) i = true)
    by (apply auctionExists_true; rewrite Ha'; simpl; by apply auctionExists_true).
  exists c. unfold getBid, getAllBidders, getAuctionDetails.
  rewrite Hex', Hex, Ha'. cbn [require mbind result_bind].
  split_and!; try done; try lia.
  - rewrite bidOf_insert. by case_decide.
  - intros who Hwho. rewrite bidOf_insert. by case_decide.
Qed.

Lemma placeBid_then_getBid_witness :
  ∃ c, fromExternal (FHE := Mock.fhe) Mock.X (Mock.handleOf 50) Mock.inputProof = Some c ∧
       getBid (run (fhe := Mock.fhe) init (take 2 Mock.bidding)) "A1" Mock.X
       = Ok (c, 101, false, 0).
Proof.
  destruct (placeBid_then_getBid (fhe := Mock.fhe)
              (run (fhe := Mock.fhe) init (take 1 Mock.bidding))
              (mkEnv Mock.X 101) "A1" (Mock.handleOf 50) Mock.inputProof
              (run (fhe := Mock.fhe) init (take 2 Mock.bidding))
              [AllowThis 1050; MakePubliclyDecryptable 1050;
               Emit (BidPlaced "A1" Mock.X 1050)])
    as (c & Hc & _ & _ & Hget & _); [vm_compute; reflexivity|].
  exists c. split; [exact Hc | exact Hget].
Defined.

(** ** decryptBid *)

(** X6.  The failures of [decryptBid] on an existing auction, in source
    order: "Auction not ended" up to and including [endTime]; past it,
    "Bid already decrypted" for a caller whose bid is marked decrypted; then
    the library's signature error when the opening does not verify.  A clear
    value shorter than one 32-byte word, or whose word does not fit in 32
    bits, never commits, whatever the verifier answers.  A failed call
    changes nothing. *)
Theorem decryptBid_failures {fhe : FHE} s env i v p :
  auctionExists s i = true →
  let a := auctionOf s i in
  let b := bidOf a (msg_sender env) in
  (block_timestamp env ≤ endTime a →
   decryptBid s env i v p = Err Auction_not_ended) ∧
  (endTime a < block_timestamp env → isDecrypted b = true →
   decryptBid s env i v p = Err Bid_already_decrypted) ∧
  (endTime a < block_timestamp env → isDecrypted b = false →
   checkSignatures [toBytes32 (encryptedBidAmount b)] v p = false →
   decryptBid s env i v p = Err FHE_invalid_signatures) ∧
  (Z.of_nat (length v) < 32 ∨ 2 ^ 32 ≤ be_value (take 32 v) →
   ∃ r, decryptBid s env i v p = Err r) ∧
  (∀ r, decryptBid s env i v p = Err r → step s (env, DecryptBid i v p) = s).
Proof.
  intros Hex a b. unfold decryptBid. fold a b. rewrite Hex.
  cbn [require mbind result_bind]. split_and!.
  - intros Hearly%Z.ltb_ge. by rewrite Hearly.
  - intros Hend%Z.ltb_lt Hdec. by rewrite Hend, Hdec.
  - intros Hend%Z.ltb_lt Hdec Hsig. by rewrite Hend, Hdec, Hsig.
  - intros Hbad.
    assert (Hd : abi_decode_uint32 v = Err Abi_decode_error).
    { unfold abi_decode_uint32.
      destruct (Z.of_nat (length v) <? 32) eqn:E1; [done|].
      destruct (be_value (take 32 v) <? 2 ^ 32) eqn:E2; [|done].
      apply Z.ltb_ge in E1. apply Z.ltb_lt in E2. lia. }
    rewrite Hd.
    destruct (_ <? block_timestamp env); cbn [require mbind result_bind];
      [|by eexists].
    destruct (negb _); cbn [require mbind result_bind]; [|by eexists].
    destruct (checkSignatures _ _ _); cbn [require mbind result_bind]; by eexists.
  - intros r Hr. unfold step; simpl. unfold decryptBid. fold a b.
    rewrite Hex. cbn [require mbind result_bind]. by rewrite Hr.
Qed.

Lemma decryptBid_failures_witness :
  decryptBid (fhe := Mock.fhe) (run (fhe := Mock.fhe) init Mock.bidding)
             (mkEnv Mock.X 200) "A1" (abi_encode_uint32 50) []
  = Err Auction_not_ended.
Proof.
  apply (decryptBid_failures (fhe := Mock.fhe)); [reflexivity|].
  vm_compute. discriminate.
Defined.

(** X7.  A [decryptBid] that commits marks the caller's bid as decrypted
    with the decoded clear value, which fits in 32 bits, and keeps its
    handle and timestamp; [highestBidAmount] becomes the larger of its old
    value and the decoded one, and [highestBidder] the caller exactly when
    the decoded value is strictly larger; the bidder list, the bids of all
    other addresses, the token, the window and the finalised flag are
    unchanged. *)
Theorem decryptBid_then_getBid {fhe : FHE} s env i v p s' effs :
  decryptBid s env i v p = Ok (s', effs) →
  let a := auctionOf s i in
  let b := bidOf a (msg_sender env) in
  ∃ d, abi_decode_uint32 v = Ok d ∧ 0 ≤ d < 2 ^ 32 ∧
    getBid s' i (msg_sender env)
      = Ok (encryptedBidAmount b, timestamp b, true, d) ∧
    (∀ who, who ≠ msg_sender env → getBid s' i who = getBid s i who) ∧
    getAllBidders s' i = getAllBidders s i ∧
    getAuctionDetails s' i
      = Ok (nftTokenId a, startTime a, endTime a,
            if highestBidAmount a <? d then msg_sender env else highestBidder a,
            Z.max (highestBidAmount a) d, isActive a) ∧
    effs = [Emit (BidDecrypted i (msg_sender env) d)].
Proof.
  intros (d & Hex%auctionExists_true & _ & _ & _ & Hd & -> & ->)%decryptBid_Ok a b.
  assert (Ha' : auctionOf (revealed s env i d) i
                = mkAuction (nftTokenId a) (startTime a) (endTime a)
                    (if highestBidAmount a <? d then msg_sender env
                     else highestBidder a)
                    (if highestBidAmount a <? d then d else highestBidAmount a)
                    (isActive a)
                    (<[msg_sender env := mkBid (bidder b) (encryptedBidAmount b)
                                           (timestamp b) true d]> (bids a))
                    (bidders a)).
  { unfold revealed. rewrite auctionOf_insert. by case_decide. }
  assert (Hex' : auctionExists (revealed s env i d) i = true)
    by (apply auctionExists_true; rewrite Ha'; simpl; by apply auctionExists_true).
  exists d. unfold getBid, getAllBidders, getAuctionDetails.
  rewrite Hex', Hex, Ha'. cbn [require mbind result_bind]. fold a.
  split_and!; try done.
  - by eapply abi_decode_uint32_range.
  - by eapply abi_decode_uint32_range.
  - rewrite bidOf_insert. by case_decide.
  - intros who Hwho. rewrite bidOf_insert. by case_decide.
  - simpl. repeat f_equal.
    destruct (highestBidAmount a <? d) eqn:E;
      [apply Z.ltb_lt in E | apply Z.ltb_ge in E]; lia.
Qed.

Lemma decryptBid_then_getBid_witness :
  ∃ d, abi_decode_uint32 (abi_encode_uint32 50) = Ok d ∧
       getBid (run (fhe := Mock.fhe) init (Mock.bidding ++ [Mock.revealX]))
              "A1" Mock.X
       = Ok (1050, 101, true, d).
Proof.
  destruct (decryptBid_then_getBid (fhe := Mock.fhe)
              (run (fhe := Mock.fhe) init Mock.bidding)
              (mkEnv Mock.X 201) "A1" (abi_encode_uint32 50) []
              (run (fhe := Mock.fhe) init (Mock.bidding ++ [Mock.revealX]))
              [Emit (BidDecrypted "A1" Mock.X 50)])
    as (d & Hd & _ & Hget & _); [vm_compute; reflexivity|].
  exists d. split; [exact Hd|]. etransitivity; [exact Hget|].
  vm_compute. reflexivity.
Defined.

(** ** The clear value *)

Lemma be_value_snoc (bs : bytes) (b : Byte.byte) :
  be_value (bs ++ [b]) = be_value bs * 256 + Z.of_N (Byte.to_N b).
Proof. unfold be_value. by rewrite fold_left_app. Qed.

Lemma byte_of_value (z : Z) :
  0 ≤ z < 256 → Z.of_N (Byte.to_N (byte_of z)) = z.
Proof.
  intros Hz. unfold byte_of.
  destruct (Byte.of_N (Z.to_N z)) as [b|] eqn:E.
  - apply Byte.to_of_N in E. rewrite E. lia.
  - apply Byte.of_N_None_iff in E. lia.
Qed.

Lemma length_be_bytes (n : nat) (v : Z) : length (be_bytes n v) = n.
Proof.
  revert v. induction n as [|n IH]; intros v; simpl; [done|].
  rewrite length_app, IH. simpl. lia.
Qed.

Lemma be_value_be_bytes (n : nat) (v : Z) :
  0 ≤ v → be_value (be_bytes n v) = v mod 256 ^ Z.of_nat n.
Proof.
  revert v. induction n as [|n IH]; intros v Hv.
  - simpl. by rewrite Z.mod_1_r.
  - cbn [be_bytes]. rewrite be_value_snoc, IH by (apply Z.div_pos; lia).
    rewrite byte_of_value by (apply Z.mod_pos_bound; lia).
    rewrite Nat2Z.inj_succ, Z.pow_succ_r by lia.
    rewrite Z.rem_mul_r; [lia | lia | apply Z.pow_pos_nonneg; lia].
Qed.

(** X8.  [abi.decode] inverts the ABI encoding of a [uint32] and ignores
    whatever follows the first word. *)
Theorem abi_decode_encode (v : Z) (rest : bytes) :
  0 ≤ v < 2 ^ 32 →
  abi_decode_uint32 (abi_encode_uint32 v ++ rest) = Ok v.
Proof.
  intros Hv. unfold abi_decode_uint32, abi_encode_uint32.
  rewrite length_app, length_be_bytes.
  destruct (Z.of_nat (32 + length rest) <? 32) eqn:E;
    [apply Z.ltb_lt in E; lia|].
  rewrite take_app_length' by (by rewrite length_be_bytes).
  rewrite be_value_be_bytes by lia.
  assert (Hmod : v mod 256 ^ Z.of_nat 32 = v).
  { apply Z.mod_small. split; [lia|].
    apply Z.lt_le_trans with (2 ^ 32); [lia|].
    change (256 ^ Z.of_nat 32) with ((2 ^ 32) * (2 ^ 224)).
    assert (0 < 2 ^ 32) by lia. assert (1 ≤ 2 ^ 224) by lia. nia. }
  rewrite Hmod.
  destruct (v <? 2 ^ 32) eqn:E2; [done|]. apply Z.ltb_ge in E2. lia.
Qed.

Lemma abi_decode_encode_witness :
  abi_decode_uint32 (abi_encode_uint32 80 ++ [Byte.xff]) = Ok 80.
Proof. apply abi_decode_encode. lia. Defined.

(** ** Frames *)

(** X9.  A transaction leaves every auction other than the one it names
    untouched, and in every auction the bid of every address other than
    the caller. *)
Theorem transaction_frame {fhe : FHE} s tx j :
  (targetOf tx.2 ≠ j → auctionOf (step s tx) j = auctionOf s j) ∧
  (∀ who, who ≠ msg_sender tx.1 →
          bidOf (auctionOf (step s tx) j) who = bidOf (auctionOf s j) who).
Proof.
  revert s tx.
  apply (step_cases (λ s tx s' evs,
    (targetOf tx.2 ≠ j → auctionOf s' j = auctionOf s j) ∧
    (∀ who, who ≠ msg_sender tx.1 →
            bidOf (auctionOf s' j) who = bidOf (auctionOf s j) who)));
    [done|..]; intros s env i; intros; simpl;
    unfold created, placed, revealed, finalized;
    rewrite auctionOf_insert; (split; [intros Hij; by case_decide|]);
    intros who Hwho; case_decide; subst; try done;
    rewrite bidOf_insert; by case_decide.
Qed.

(** ** finalizeAuction *)

Lemma auctionOngoing_inactive {fhe : FHE} s env i :
  nftTokenId (auctionOf s i) ≠ "" →
  isActive (auctionOf s i) = false →
  auctionOngoing s env i = Err Auction_not_active.
Proof.
  intros Hex%auctionExists_true Hfin. unfold auctionOngoing.
  rewrite Hex, Hfin. cbn [require mbind result_bind].
  by destruct (_ && _).
Qed.

(** X10.  A [finalizeAuction] that commits announces the stored pair, which
    has a bidder other than the zero address, and changes only the
    finalised flag; from then on, whatever happens, every [placeBid] on the
    auction fails with "Auction not active". *)
Theorem finalizeAuction_closes_bidding {fhe : FHE} s env i s1 effs :
  finalizeAuction s env i = Ok (s1, effs) →
  let a := auctionOf s i in
  highestBidder a ≠ 0 ∧
  effs = [Emit (AuctionFinalized i (highestBidder a) (highestBidAmount a))] ∧
  auctionOf s1 i
    = mkAuction (nftTokenId a) (startTime a) (endTime a) (highestBidder a)
                (highestBidAmount a) false (bids a) (bidders a) ∧
  (∀ j, j ≠ i → auctionOf s1 j = auctionOf s j) ∧
  auctionIds s1 = auctionIds s ∧
  ∀ txs env' h p, placeBid (run s1 txs) env' i h p = Err Auction_not_active.
Proof.
  intros (Hex & _ & _ & Hhb & -> & ->)%finalizeAuction_Ok a.
  assert (Ha1 : auctionOf (finalized s i) i
                = mkAuction (nftTokenId a) (startTime a) (endTime a)
                    (highestBidder a) (highestBidAmount a) false
                    (bids a) (bidders a)).
  { unfold finalized. rewrite auctionOf_insert. by case_decide. }
  split_and!; try done.
  - intros j Hj. unfold finalized. rewrite auctionOf_insert. by case_decide.
  - intros txs env' h p.
    destruct (run_frozen i txs (finalized s i)) as (Hn & _ & _ & Hfin);
      [by rewrite Ha1|].
    unfold placeBid. rewrite auctionOngoing_inactive; [done| |].
    + rewrite Hn, Ha1. done.
    + apply Hfin. by rewrite Ha1.
Qed.

Lemma finalizeAuction_closes_bidding_witness :
  placeBid (fhe := Mock.fhe)
    (run (fhe := Mock.fhe)
         (run (fhe := Mock.fhe) init Mock.roundTrip) [Mock.revealY])
    (mkEnv Mock.stranger 150) "A1" (Mock.handleOf 90) Mock.inputProof
  = Err Auction_not_active.
Proof.
  eapply (finalizeAuction_closes_bidding (fhe := Mock.fhe)
            (run (fhe := Mock.fhe) init (Mock.bidding ++ [Mock.revealX; Mock.revealY]))
            (mkEnv Mock.owner 203) "A1").
  vm_compute. reflexivity.
Defined.

(** ** Stored bids, revealed amounts and the window *)

Section MoreInvariants.
Context {fhe : FHE}.

Lemma wfBids_zero : wfBids zeroAuction.
Proof.
  split; [done|..]; intros who; rewrite bidOf_zero; simpl; done.
Qed.

Lemma step_wfBids s tx :
  WF s → (∀ j, wfBids (auctionOf s j)) → ∀ j, wfBids (auctionOf (step s tx) j).
Proof.
  revert s tx.
  apply (step_cases (λ s tx s' evs,
    WF s → (∀ j, wfBids (auctionOf s j)) → ∀ j, wfBids (auctionOf s' j)));
    [done|..].
  - intros s env i n st en Hfresh _ Hwin Hwf IH j. unfold created.
    rewrite auctionOf_insert. case_decide; subst; [|apply IH].
    destruct (wf_fresh _ (Hwf j) Hfresh) as (_ & _ & _ & Hz).
    assert (Hb : ∀ who hb ha act bs,
               bidOf (mkAuction n st en hb ha act (bids (auctionOf s j)) bs) who
               = zeroBid) by (intros; apply Hz).
    split; simpl; [done|..]; intros who; rewrite Hb; simpl; done.
  - intros s env i h p c (Hex & Hwin & _)%auctionOngoing_Ok _ Hc _ _ IH j.
    unfold placed. rewrite auctionOf_insert. case_decide; subst; [|apply IH].
    pose proof (IH j) as Ha. split; simpl.
    + apply Ha.
    + intros who. rewrite bidOf_insert. case_decide; subst; simpl; [done|].
      apply (wb_stored _ Ha).
    + intros who. rewrite bidOf_insert. case_decide; subst; simpl; [done|].
      apply (wb_revealed _ Ha).
  - intros s env i v p d Hex _ _ _ Hd%abi_decode_uint32_range Hwf IH j.
    unfold revealed. rewrite auctionOf_insert. case_decide; subst; [|apply IH].
    pose proof (IH j) as Ha. pose proof (wf_amount _ (Hwf j)) as Hrange.
    split; simpl.
    + apply Ha.
    + intros who. rewrite bidOf_insert. case_decide; subst; simpl;
        apply (wb_stored _ Ha).
    + intros who. rewrite bidOf_insert.
      case_decide; subst; simpl.
      * intros _. split; [done|].
        destruct (_ <? d) eqn:E; [apply Z.ltb_lt in E|apply Z.ltb_ge in E]; lia.
      * intros Hdec. destruct (wb_revealed _ Ha who Hdec) as (? & ?).
        split; [done|].
        destruct (_ <? d) eqn:E; [apply Z.ltb_lt in E|apply Z.ltb_ge in E]; lia.
  - intros s env i Hex _ _ _ _ IH j.
    unfold finalized. rewrite auctionOf_insert. case_decide; subst; [|apply IH].
    pose proof (IH j) as Ha. split; simpl; apply Ha.
Qed.

Lemma reachable_wfBids s : reachable s → ∀ j, wfBids (auctionOf s j).
Proof.
  induction 1 as [|s tx Hs IH].
  - intros j. rewrite auctionOf_init. apply wfBids_zero.
  - apply step_wfBids; [by apply reachable_WF | done].
Qed.

End MoreInvariants.

(** X11.  In every reachable state a stored bid sits in an existing
    auction, records its own bidder, and carries a timestamp inside the
    window of the auction, ends included. *)
Theorem stored_bid_is_in_window {fhe : FHE} s i who :
  reachable s →
  encryptedBidAmount (bidOf (auctionOf s i) who) ≠ 0 →
  auctionExists s i = true ∧
  bidder (bidOf (auctionOf s i) who) = who ∧
  startTime (auctionOf s i) ≤ timestamp (bidOf (auctionOf s i) who)
    ≤ endTime (auctionOf s i).
Proof.
  intros Hs Hbid.
  destruct (wb_stored _ (reachable_wfBids s Hs i) who Hbid) as (Hex & Hb & Ht).
  split_and!; try done; try lia. by apply auctionExists_true.
Qed.

Lemma stored_bid_is_in_window_witness :
  let s := run (fhe := Mock.fhe) init Mock.roundTrip in
  bidder (bidOf (auctionOf s "A1") Mock.Y) = Mock.Y.
Proof.
  intros s.
  apply (stored_bid_is_in_window (fhe := Mock.fhe) s "A1" Mock.Y).
  - apply reachable_run. constructor.
  - vm_compute. discriminate.
Defined.

(** X12.  In every reachable state the amount of a decrypted bid fits in 32
    bits and does not exceed the [highestBidAmount] of its auction. *)
Theorem revealed_amount_is_bounded {fhe : FHE} s i who :
  reachable s →
  isDecrypted (bidOf (auctionOf s i) who) = true →
  0 ≤ decryptedBidAmount (bidOf (auctionOf s i) who)
    ≤ highestBidAmount (auctionOf s i) ∧
  highestBidAmount (auctionOf s i) < 2 ^ 32.
Proof.
  intros Hs Hdec.
  destruct (wb_revealed _ (reachable_wfBids s Hs i) who Hdec) as (_ & Hle).
  pose proof (wf_amount _ (reachable_WF s Hs i)). split; [done | lia].
Qed.

Lemma revealed_amount_is_bounded_witness :
  let s := run (fhe := Mock.fhe) init Mock.roundTrip in
  decryptedBidAmount (bidOf (auctionOf s "A1") Mock.X)
  ≤ highestBidAmount (auctionOf s "A1").
Proof.
  intros s.
  apply (revealed_amount_is_bounded (fhe := Mock.fhe) s "A1" Mock.X).
  - apply reachable_run. constructor.
  - vm_compute. reflexivity.
Defined.

(** X13.  An existing auction has [startTime] before [endTime], and its
    token, [startTime] and [endTime] never change afterwards. *)
Theorem window_is_fixed {fhe : FHE} s i :
  reachable s →
  auctionExists s i = true →
  startTime (auctionOf s i) < endTime (auctionOf s i) ∧
  ∀ txs,
    nftTokenId (auctionOf (run s txs) i) = nftTokenId (auctionOf s i) ∧
    startTime (auctionOf (run s txs) i) = startTime (auctionOf s i) ∧
    endTime (auctionOf (run s txs) i) = endTime (auctionOf s i).
Proof.
  intros Hs Hex%auctionExists_true. split.
  - by apply (wb_window _ (reachable_wfBids s Hs i)).
  - intros txs. destruct (run_frozen i txs s Hex) as (? & ? & ? & _). done.
Qed.

Lemma window_is_fixed_witness :
  let s := run (fhe := Mock.fhe) init (take 1 Mock.bidding) in
  endTime (auctionOf (run (fhe := Mock.fhe) s (drop 1 Mock.roundTrip)) "A1")
  = endTime (auctionOf s "A1").
Proof.
  intros s.
  apply (window_is_fixed (fhe := Mock.fhe) s "A1").
  - apply reachable_run. constructor.
  - vm_compute. reflexivity.
Defined.

(** ** Histories *)

Section HistoryFacts.
Context {fhe : FHE}.

Lemma history_reachable t s evs : history t s evs → reachable s.
Proof. induction 1; [constructor | by constructor]. Qed.

Lemma history_run txs t s evs :
  history t s evs → chronological t txs = true →
  history (clockAfter t txs) (run s txs) (evs ++ log s txs).
Proof.
  revert t s evs. induction txs as [|tx txs IH]; intros t s evs Hh Hchron; simpl.
  - by rewrite app_nil_r.
  - simpl in Hchron. apply andb_true_iff in Hchron as [Hle%Z.leb_le Hrest].
    rewrite app_assoc. apply IH; [|done]. by apply (hist_step t).
Qed.

Lemma history_of_run t txs :
  chronological t txs = true →
  history (clockAfter t txs) (run init txs) (log init txs).
Proof. intros H. apply (history_run txs t init [] (hist_init t) H). Qed.

Lemma history_is_run t s evs :
  history t s evs → ∃ txs, s = run init txs ∧ evs = log init txs.
Proof.
  induction 1 as [t|t s evs tx _ (txs & -> & ->) _]; [by exists []|].
  exists (txs ++ [tx]). rewrite run_app, log_app. simpl. by rewrite app_nil_r.
Qed.

Lemma revealsOf_snoc i evs ev :
  revealsOf i (evs ++ [ev])
  = revealsOf i evs ++ match ev with
                       | BidDecrypted j who v =>
                           if decide (j = i) then [(who, v)] else []
                       | _ => []
                       end.
Proof.
  rewrite revealsOf_app. f_equal. destruct ev; simpl; try done. by case_decide.
Qed.

Lemma finalizedOf_snoc i evs ev :
  finalizedOf i (evs ++ [ev])
  = finalizedOf i evs ++ match ev with
                         | AuctionFinalized j w m =>
                             if decide (j = i) then [(w, m)] else []
                         | _ => []
                         end.
Proof.
  unfold finalizedOf. rewrite omap_app. f_equal.
  destruct ev; simpl; try done. by case_decide.
Qed.

(** *** The clock *)

Lemma clockInv_mono t t' a : t ≤ t' → clockInv t a → clockInv t' a.
Proof.
  intros Hle [H1 H2 H3]. split.
  - intros who Hd. specialize (H1 who Hd). lia.
  - intros Hn Ha. specialize (H2 Hn Ha). lia.
  - intros who Hb. specialize (H3 who Hb). lia.
Qed.

Lemma clockInv_zero t : clockInv t zeroAuction.
Proof. split; try done; intros who; rewrite bidOf_zero; done. Qed.

Lemma step_clockInv s tx :
  ∀ t, WF s → (∀ j, clockInv t (auctionOf s j)) →
       t ≤ block_timestamp tx.1 →
       ∀ j, clockInv (block_timestamp tx.1) (auctionOf (step s tx) j).
Proof.
  revert s tx.
  apply (step_cases (λ s tx s' evs,
    ∀ t, WF s → (∀ j, clockInv t (auctionOf s j)) →
         t ≤ block_timestamp tx.1 →
         ∀ j, clockInv (block_timestamp tx.1) (auctionOf s' j))).
  - intros s tx r _ t _ IH Hle j. by apply (clockInv_mono t).
  - intros s env i n st en Hfresh _ _ t Hwf IH Hle j. simpl in *.
    unfold created. rewrite auctionOf_insert.
    case_decide; subst; [|by apply (clockInv_mono t)].
    destruct (wf_fresh _ (Hwf j) Hfresh) as (_ & _ & _ & Hz).
    assert (Hb : ∀ who hb ha act bs,
               bidOf (mkAuction n st en hb ha act (bids (auctionOf s j)) bs) who
               = zeroBid) by (intros; apply Hz).
    split; simpl; try done; intros who; rewrite Hb; done.
  - intros s env i h p c (_ & Hwin & Hact)%auctionOngoing_Ok _ _ _ t Hwf IH Hle j.
    simpl in *. unfold placed. rewrite auctionOf_insert.
    case_decide; subst; [|by apply (clockInv_mono t)].
    destruct (clockInv_mono t _ _ Hle (IH j)) as [H1 H2 H3].
    split; simpl.
    + intros who. rewrite bidOf_insert. case_decide; subst; simpl; [done|apply H1].
    + congruence.
    + intros who. rewrite bidOf_insert.
      case_decide; subst; simpl; [lia|apply H3].
  - intros s env i v p d _ Hend _ _ _ t Hwf IH Hle j. simpl in *.
    unfold revealed. rewrite auctionOf_insert.
    case_decide; subst; [|by apply (clockInv_mono t)].
    destruct (clockInv_mono t _ _ Hle (IH j)) as [H1 H2 H3].
    split; simpl.
    + intros who. rewrite bidOf_insert. case_decide; subst; simpl; [done|apply H1].
    + done.
    + intros who. rewrite bidOf_insert.
      case_decide; subst; simpl; apply H3.
  - intros s env i _ Hend _ _ t Hwf IH Hle j. simpl in *.
    unfold finalized. rewrite auctionOf_insert.
    case_decide; subst; [|by apply (clockInv_mono t)].
    destruct (clockInv_mono t _ _ Hle (IH j)) as [H1 H2 H3].
    split; simpl; done.
Qed.

Lemma history_clockInv t s evs :
  history t s evs → ∀ j, clockInv t (auctionOf s j).
Proof.
  induction 1 as [t|t s evs tx Hh IH Hle].
  - intros j. rewrite auctionOf_init. apply clockInv_zero.
  - apply (step_clockInv s tx t); [|done|done].
    by apply reachable_WF, (history_reachable t s evs).
Qed.

(** *** The reveals *)

Lemma revealInv_zero : revealInv zeroAuction [].
Proof.
  split; simpl; try lia.
  - intros who. rewrite bidOf_zero. simpl. split; [done|by intros ?%elem_of_nil].
  - by intros w d ?%elem_of_nil.
  - constructor.
Qed.

Lemma step_revealInv s tx :
  ∀ t evs, (∀ j, clockInv t (auctionOf s j)) →
       t ≤ block_timestamp tx.1 →
       (∀ j, revealInv (auctionOf s j) (revealsOf j evs)) →
       ∀ j, revealInv (auctionOf (step s tx) j) (revealsOf j (evs ++ emitted s tx)).
Proof.
  revert s tx.
  apply (step_cases (λ s tx s' evs',
    ∀ t evs, (∀ j, clockInv t (auctionOf s j)) →
         t ≤ block_timestamp tx.1 →
         (∀ j, revealInv (auctionOf s j) (revealsOf j evs)) →
         ∀ j, revealInv (auctionOf s' j) (revealsOf j (evs ++ evs')))).
  - intros s tx r _ t evs _ _ IH j. by rewrite app_nil_r.
  - intros s env i n st en _ _ _ t evs _ _ IH j.
    rewrite revealsOf_snoc, app_nil_r. unfold created.
    rewrite auctionOf_insert. case_decide; subst; [|apply IH].
    destruct (IH j) as [H1 H2 H3 H4]. split; simpl; try done; lia.
  - intros s env i h p c (_ & Hwin & _)%auctionOngoing_Ok _ _ _ t evs Hck Hle IH j.
    simpl in Hle. rewrite revealsOf_snoc, app_nil_r. unfold placed.
    rewrite auctionOf_insert. case_decide; subst; [|apply IH].
    destruct (IH j) as [H1 H2 H3 H4].
    assert (Hnot : ∀ who, isDecrypted (bidOf (auctionOf s j) who) = true →
                          who ≠ msg_sender env).
    { intros who Hd ->. pose proof (ck_reveal _ _ (Hck j) _ Hd). lia. }
    split; simpl.
    + intros who. rewrite bidOf_insert. case_decide; subst; simpl; [|apply H1].
      split; [done|]. intros Hin%H1. by apply Hnot in Hin.
    + intros w d Hin. rewrite bidOf_insert. case_decide; subst; simpl; [|by apply H2].
      exfalso. eapply Hnot; [|done]. apply H1.
      apply list_elem_of_fmap. by exists (msg_sender env, d).
    + done.
    + intros Hpos. destruct (H4 Hpos) as [Hd Ha].
      rewrite bidOf_insert. case_decide as Heq; simpl; [|done].
      exfalso. by eapply Hnot.
  - intros s env i v p d _ _ Hdec _ _ t evs _ _ IH j.
    rewrite revealsOf_snoc. unfold revealed.
    rewrite auctionOf_insert. case_decide; subst; [|rewrite app_nil_r; apply IH].
    destruct (IH j) as [H1 H2 H3 H4].
    assert (Hnew : msg_sender env ∉ (revealsOf j evs).*1).
    { intros Hin%H1. congruence. }
    split; simpl.
    + intros who. rewrite bidOf_insert, fmap_app, elem_of_app. simpl.
      rewrite list_elem_of_singleton.
      case_decide; subst; simpl; [tauto|]. rewrite H1. intuition congruence.
    + intros w d' [Hin| [= -> ->]%list_elem_of_singleton]%elem_of_app.
      * rewrite bidOf_insert. case_decide; subst; simpl; [|by apply H2].
        exfalso. apply Hnew. apply list_elem_of_fmap. by exists (msg_sender env, d').
      * rewrite bidOf_insert. by case_decide.
    + rewrite fmap_app. apply NoDup_app. split_and!; [done| |apply NoDup_singleton].
      intros x Hx ->%list_elem_of_singleton. done.
    + destruct (_ <? d) eqn:E.
      * intros _. rewrite bidOf_insert. by case_decide.
      * intros Hpos. destruct (H4 Hpos) as [Hd Ha].
        rewrite bidOf_insert. case_decide as Heq; simpl; [|done].
        rewrite <- Heq in Hd. congruence.
  - intros s env i _ _ _ _ t evs _ _ IH j.
    rewrite revealsOf_snoc, app_nil_r. unfold finalized.
    rewrite auctionOf_insert. case_decide; subst; [|apply IH].
    destruct (IH j) as [H1 H2 H3 H4]. split; simpl; done.
Qed.

Lemma history_revealInv t s evs :
  history t s evs → ∀ j, revealInv (auctionOf s j) (revealsOf j evs).
Proof.
  induction 1 as [t|t s evs tx Hh IH Hle].
  - intros j. rewrite auctionOf_init. apply revealInv_zero.
  - apply (step_revealInv s tx t); [|done|done]. by apply (history_clockInv t s evs).
Qed.

End HistoryFacts.

(** *** Finalisation in the log *)

Section FinalFacts.
Context {fhe : FHE}.

Lemma finalInv_zero : finalInv zeroAuction [].
Proof. split; simpl; [done | done | lia | by intros w m ?%elem_of_nil]. Qed.

Lemma step_finalInv s tx :
  ∀ evs, WF s →
         (∀ j, finalInv (auctionOf s j) (finalizedOf j evs)) →
         ∀ j, finalInv (auctionOf (step s tx) j) (finalizedOf j (evs ++ emitted s tx)).
Proof.
  revert s tx.
  apply (step_cases (λ s tx s' evs',
    ∀ evs, WF s →
           (∀ j, finalInv (auctionOf s j) (finalizedOf j evs)) →
           ∀ j, finalInv (auctionOf s' j) (finalizedOf j (evs ++ evs')))).
  - intros s tx r _ evs _ IH j. by rewrite app_nil_r.
  - intros s env i n st en Hfresh _ _ evs _ IH j.
    rewrite finalizedOf_snoc, app_nil_r. unfold created.
    rewrite auctionOf_insert. case_decide; subst; [|apply IH].
    rewrite (fi_fresh _ _ (IH j) Hfresh).
    split; simpl; [done | done | lia | by intros w m ?%elem_of_nil].
  - intros s env i h p c _ _ _ _ evs _ IH j.
    rewrite finalizedOf_snoc, app_nil_r. unfold placed.
    rewrite auctionOf_insert. case_decide; subst; [|apply IH].
    destruct (IH j) as [H1 H2 H3 H4]. split; simpl; done.
  - intros s env i v p d _ _ _ _ _ evs _ IH j.
    rewrite finalizedOf_snoc, app_nil_r. unfold revealed.
    rewrite auctionOf_insert. case_decide; subst; [|apply IH].
    destruct (IH j) as [H1 H2 H3 H4]. split; simpl; try done.
    intros w m Hin. destruct (H4 w m Hin) as (? & ?). split; [done|].
    destruct (_ <? d) eqn:E; [apply Z.ltb_lt in E|]; lia.
  - intros s env i Hex _ Hact Hhb evs Hwf IH j.
    rewrite finalizedOf_snoc. unfold finalized.
    rewrite auctionOf_insert. case_decide; subst; [|rewrite app_nil_r; apply IH].
    destruct (IH j) as [H1 H2 H3 H4].
    assert (Hnil : finalizedOf j evs = []) by by apply H1.
    rewrite Hnil. split; simpl.
    + intros _. split; intros; discriminate.
    + intros Hn. by rewrite Hn in Hex.
    + lia.
    + intros w m [= -> ->]%list_elem_of_singleton.
      pose proof (wf_winner _ (Hwf j) Hhb). split; [done|lia].
Qed.

Lemma run_finalInv txs s evs :
  WF s →
  (∀ j, finalInv (auctionOf s j) (finalizedOf j evs)) →
  ∀ j, finalInv (auctionOf (run s txs) j) (finalizedOf j (evs ++ log s txs)).
Proof.
  revert s evs. induction txs as [|tx txs IH]; intros s evs Hwf Hinv; simpl.
  - by rewrite app_nil_r.
  - rewrite app_assoc. apply IH; [by apply step_WF|]. by apply step_finalInv.
Qed.

End FinalFacts.

(** ** Reveals, the winner and finalisation, against the log *)

(** X14.  After any chronological history, no address has two reveals of
    the same auction in the log; a bid is marked decrypted exactly when its
    address has a reveal in the log; and the amount stored is the amount
    logged. *)
Theorem each_bidder_reveals_once {fhe : FHE} t s evs i :
  history t s evs →
  let a := auctionOf s i in
  let rs := revealsOf i evs in
  NoDup rs.*1 ∧
  (∀ who, isDecrypted (bidOf a who) = true ↔ who ∈ rs.*1) ∧
  (∀ who d, (who, d) ∈ rs → decryptedBidAmount (bidOf a who) = d).
Proof.
  intros Hh a rs.
  destruct (history_revealInv t s evs Hh i) as [H1 H2 H3 _]. done.
Qed.

Lemma each_bidder_reveals_once_witness :
  NoDup (revealsOf "A1" (log (fhe := Mock.fhe) init Mock.roundTrip)).*1.
Proof.
  eapply (each_bidder_reveals_once (fhe := Mock.fhe)).
  apply (history_of_run (fhe := Mock.fhe) 0). vm_compute. reflexivity.
Defined.

(** X15.  After a chronological history in which an address has revealed in
    an auction, every later [decryptBid] by that address on that auction
    fails with "Bid already decrypted". *)
Theorem second_reveal_fails {fhe : FHE} t s evs i env v p :
  history t s evs →
  msg_sender env ∈ (revealsOf i evs).*1 →
  t ≤ block_timestamp env →
  decryptBid s env i v p = Err Bid_already_decrypted ∧
  step s (env, DecryptBid i v p) = s.
Proof.
  intros Hh Hin Hle.
  apply (rv_revealers _ _ (history_revealInv t s evs Hh i)) in Hin.
  pose proof (ck_reveal _ _ (history_clockInv t s evs Hh i) _ Hin) as Hend.
  destruct (wb_revealed _ (reachable_wfBids s (history_reachable t s evs Hh) i) _ Hin)
    as (Hex%auctionExists_true & _).
  assert (H : decryptBid s env i v p = Err Bid_already_decrypted).
  { unfold decryptBid. rewrite Hex, Hin.
    assert (Hlt : (endTime (auctionOf s i) <? block_timestamp env) = true)
      by (apply Z.ltb_lt; lia).
    by rewrite Hlt. }
  split; [done|]. unfold step; simpl. by rewrite H.
Qed.

Lemma second_reveal_fails_witness :
  decryptBid (fhe := Mock.fhe) (run (fhe := Mock.fhe) init Mock.roundTrip)
             (mkEnv Mock.X 300) "A1" (abi_encode_uint32 50) []
  = Err Bid_already_decrypted.
Proof.
  eapply (second_reveal_fails (fhe := Mock.fhe)).
  - apply (history_of_run (fhe := Mock.fhe) 0). vm_compute. reflexivity.
  - vm_compute. left.
  - vm_compute. discriminate.
Defined.

(** X16.  After any chronological history, when [highestBidAmount] is
    positive, the bid of [highestBidder] is marked decrypted with exactly
    that amount, and the pair is one of the reveals in the log. *)
Theorem winner_has_revealed {fhe : FHE} t s evs i :
  history t s evs →
  let a := auctionOf s i in
  0 < highestBidAmount a →
  isDecrypted (bidOf a (highestBidder a)) = true ∧
  decryptedBidAmount (bidOf a (highestBidder a)) = highestBidAmount a ∧
  highest a ∈ revealsOf i evs.
Proof.
  intros Hh a Hpos.
  destruct (history_revealInv t s evs Hh i) as [H1 H2 _ H4]. fold a in H1, H2, H4.
  destruct (H4 Hpos) as [Hd Ha]. split_and!; [done|done|].
  apply H1, list_elem_of_fmap in Hd as ([w d] & Hw & Hin). simpl in Hw. subst w.
  rewrite (H2 _ _ Hin) in Ha. unfold highest. by rewrite <- Ha.
Qed.

Lemma winner_has_revealed_witness :
  let a := auctionOf (run (fhe := Mock.fhe) init Mock.roundTrip) "A1" in
  decryptedBidAmount (bidOf a (highestBidder a)) = highestBidAmount a.
Proof.
  intros a.
  eapply (winner_has_revealed (fhe := Mock.fhe)).
  - apply (history_of_run (fhe := Mock.fhe) 0). vm_compute. reflexivity.
  - vm_compute. reflexivity.
Defined.

(** X17.  After a chronological history with a reveal of an auction in the
    log, every later [placeBid] on that auction fails with "Auction not
    active": bidding is over once the first bid is opened. *)
Theorem no_bid_after_reveal {fhe : FHE} t s evs i env h p :
  history t s evs →
  revealsOf i evs ≠ [] →
  t ≤ block_timestamp env →
  placeBid s env i h p = Err Auction_not_active ∧
  step s (env, PlaceBid i h p) = s.
Proof.
  intros Hh Hne Hle.
  destruct (revealsOf i evs) as [|[w d] rs] eqn:Hrs; [done|].
  assert (Hd : isDecrypted (bidOf (auctionOf s i) w) = true).
  { apply (rv_revealers _ _ (history_revealInv t s evs Hh i)).
    rewrite Hrs. simpl. by left. }
  pose proof (ck_reveal _ _ (history_clockInv t s evs Hh i) _ Hd) as Hend.
  destruct (wb_revealed _ (reachable_wfBids s (history_reachable t s evs Hh) i) _ Hd)
    as (Hex%auctionExists_true & _).
  assert (H : placeBid s env i h p = Err Auction_not_active).
  { unfold placeBid, auctionOngoing. rewrite Hex.
    cbn [require mbind result_bind].
    assert (Hout : (block_timestamp env <=? endTime (auctionOf s i)) = false)
      by (apply Z.leb_gt; lia).
    by rewrite Hout, andb_false_r. }
  split; [done|]. unfold step; simpl. by rewrite H.
Qed.

Lemma no_bid_after_reveal_witness :
  placeBid (fhe := Mock.fhe)
           (run (fhe := Mock.fhe) init (Mock.bidding ++ [Mock.revealX]))
           (mkEnv Mock.stranger 201) "A1" (Mock.handleOf 90) Mock.inputProof
  = Err Auction_not_active.
Proof.
  eapply (no_bid_after_reveal (fhe := Mock.fhe)).
  - apply (history_of_run (fhe := Mock.fhe) 0). vm_compute. reflexivity.
  - vm_compute. discriminate.
  - vm_compute. discriminate.
Defined.

(** X18.  After any history, the log holds at most one [AuctionFinalized]
    event per auction; an existing auction is finalised exactly when the log
    holds one; and the event names a winner other than the zero address
    with a positive amount that [highestBidAmount] still bounds. *)
Theorem finalized_at_most_once {fhe : FHE} (txs : list (Env * Call)) (i : string) :
  let a := auctionOf (run init txs) i in
  let fs := finalizedOf i (log init txs) in
  (length fs ≤ 1)%nat ∧
  (auctionExists (run init txs) i = true → (isActive a = false ↔ fs ≠ [])) ∧
  (∀ w m, (w, m) ∈ fs → w ≠ 0 ∧ 0 < m ≤ highestBidAmount a).
Proof.
  intros a fs.
  assert (Hinv : finalInv a fs).
  { apply (run_finalInv txs init [] WF_init).
    intros j. rewrite auctionOf_init. apply finalInv_zero. }
  destruct Hinv as [H1 _ H3 H4]. split_and!; [done| |done].
  intros Hex%auctionExists_true. rewrite <- (H1 Hex).
  destruct (isActive a); split; congruence.
Qed.

(** X19.  With a verifier that rejects the uninitialised handle, only
    bidders reveal: after any chronological history every address with a
    reveal of an auction in the log is in the bidder list of the auction. *)
Theorem only_bidders_reveal {fhe : FHE} t s evs i who :
  rejectsUninitialized fhe →
  history t s evs →
  who ∈ (revealsOf i evs).*1 →
  who ∈ bidders (auctionOf s i) ∧ who ∈ placedOf i evs.
Proof.
  intros Hsound Hh Hin.
  pose proof (history_reachable t s evs Hh) as Hs.
  apply (rv_revealers _ _ (history_revealInv t s evs Hh i)) in Hin.
  assert (Hb : who ∈ bidders (auctionOf s i)).
  { apply (wf_bidders _ (reachable_WF s Hs i)). intros Hz.
    rewrite (reachable_unplaced_zero s Hsound Hs i who Hz) in Hin. done. }
  split; [done|].
  destruct (history_is_run t s evs Hh) as (txs & -> & ->).
  rewrite run_bidders, auctionOf_init in Hb by apply WF_init. done.
Qed.

Lemma only_bidders_reveal_witness :
  Mock.Y ∈ bidders (auctionOf (run (fhe := Mock.fhe) init Mock.roundTrip) "A1").
Proof.
  eapply (only_bidders_reveal (fhe := Mock.fhe)).
  - apply Mock_rejectsUninitialized.
  - apply (history_of_run (fhe := Mock.fhe) 0). vm_compute. reflexivity.
  - vm_compute. right. left.
Defined.

(** ** Events *)

(** X20.  Of the contract's own events (the four it declares), a
    transaction that reverts leaves none in the log, and one that commits
    leaves exactly one: the event of the function called, which names the
    auction of the call, and the caller when it is a bid or a reveal.
    Entries written by the FHE library during the call are not counted. *)
Theorem one_event_per_commit {fhe : FHE} s tx :
  match call s tx.1 tx.2 with
  | Err _ => emitted s tx = []
  | Ok _ =>
      ∃ ev, emitted s tx = [ev] ∧
        match ev, tx.2 with
        | AuctionCreated j n st en, CreateAuction i n' st' en' =>
            j = i ∧ n = n' ∧ st = st' ∧ en = en'
        | BidPlaced j who _, PlaceBid i _ _ => j = i ∧ who = msg_sender tx.1
        | BidDecrypted j who _, DecryptBid i _ _ => j = i ∧ who = msg_sender tx.1
        | AuctionFinalized j _ _, FinalizeAuction i => j = i
        | _, _ => False
        end
  end.
Proof.
  destruct tx as [env c]. unfold emitted. simpl.
  destruct (call s env c) as [[s' effs]|] eqn:E; [|done].
  destruct c as [i n st en|i h p|i v p|i]; simpl in E.
  - apply createAuction_Ok in E as (_ & _ & _ & _ & ->). by eexists.
  - apply placeBid_Ok in E as (c & _ & _ & _ & _ & _ & ->). by eexists.
  - apply decryptBid_Ok in E as (d & _ & _ & _ & _ & _ & _ & ->). by eexists.
  - apply finalizeAuction_Ok in E as (_ & _ & _ & _ & _ & ->). by eexists.
Qed.

(** ** The example contract of the README *)

(** The scan keeps the first bid that reaches the largest decrypted amount,
    or the initial locals when no amount is positive. *)
Lemma fold_scan_spec (decrypt : Z → Z) (bids : list Readme.Bid) :
  let res := fold_left (Readme.scan decrypt) bids (0, 0) in
  (res = (0, 0) ∧ ∀ b, b ∈ bids → decrypt (Readme.encryptedAmount b) ≤ 0) ∨
  (0 < res.1 ∧
   ∃ pre b post,
     bids = pre ++ b :: post ∧
     res = (decrypt (Readme.encryptedAmount b), Readme.bidder b) ∧
     (∀ x, x ∈ pre → decrypt (Readme.encryptedAmount x) < res.1) ∧
     (∀ x, x ∈ post → decrypt (Readme.encryptedAmount x) ≤ res.1)).
Proof.
  induction bids as [|b bids IH] using rev_ind; simpl.
  - left. split; [done | by intros ? ?%elem_of_nil].
  - rewrite fold_left_app; simpl.
    set (res := fold_left (Readme.scan decrypt) bids (0, 0)) in *.
    destruct (res.1 <? decrypt (Readme.encryptedAmount b)) eqn:E;
      [assert (Hs : Readme.scan decrypt res b
                    = (decrypt (Readme.encryptedAmount b), Readme.bidder b))
         by (unfold Readme.scan; by rewrite E)
      |assert (Hs : Readme.scan decrypt res b = res)
         by (unfold Readme.scan; by rewrite E)];
      rewrite Hs; clear Hs.
    + apply Z.ltb_lt in E. right. simpl.
      assert (Hall : ∀ x, x ∈ bids →
                decrypt (Readme.encryptedAmount x)
                < decrypt (Readme.encryptedAmount b)).
      { destruct IH as [[Heq Hle]|(Hpos & pre & b' & post & Hb & Hres & Hpre & Hpost)].
        - rewrite Heq in E; simpl in E. intros x Hx. specialize (Hle x Hx). lia.
        - intros x Hx. rewrite Hb in Hx.
          assert (decrypt (Readme.encryptedAmount x) ≤ res.1); [|lia].
          apply elem_of_app in Hx as [Hx|Hx]; [specialize (Hpre x Hx); lia|].
          apply elem_of_cons in Hx as [->|Hx]; [rewrite Hres; simpl; lia|].
          by apply Hpost. }
      assert (0 ≤ res.1).
      { destruct IH as [[Heq _]|[Hpos _]]; [by rewrite Heq | lia]. }
      split; [lia|]. exists bids, b, [].
      split_and!; [done | done | done | by intros ? ?%elem_of_nil].
    + apply Z.ltb_ge in E.
      destruct IH as [[Heq Hle]|(Hpos & pre & b' & post & Hb & Hres & Hpre & Hpost)].
      * left. split; [done|].
        intros x [Hx| ->%list_elem_of_singleton]%elem_of_app; [by apply Hle|].
        rewrite Heq in E. done.
      * right. split; [done|]. exists pre, b', (post ++ [b]). split_and!.
        -- by rewrite Hb, <- app_assoc.
        -- done.
        -- done.
        -- intros x [Hx| ->%list_elem_of_singleton]%elem_of_app;
             [by apply Hpost | done].
Qed.

(** X21.  [revealHighestBid] of the README's example returns the zero
    address when no bid decrypts to a positive amount, and otherwise the
    bidder of the first bid that reaches the largest decrypted amount. *)
Theorem revealHighestBid_first_maximum (decrypt : Z → Z) (bids : list Readme.Bid) :
  let amount b := decrypt (Readme.encryptedAmount b) in
  let winner := Readme.revealHighestBid decrypt bids in
  ((∀ b, b ∈ bids → amount b ≤ 0) → winner = 0) ∧
  (∀ b0, b0 ∈ bids → 0 < amount b0 →
     ∃ pre b post,
       bids = pre ++ b :: post ∧ winner = Readme.bidder b ∧
       (∀ x, x ∈ pre → amount x < amount b) ∧
       (∀ x, x ∈ bids → amount x ≤ amount b)).
Proof.
  intros amount winner. subst winner. unfold Readme.revealHighestBid.
  destruct (fold_scan_spec decrypt bids)
    as [[Heq Hle]|(Hpos & pre & b & post & Hb & Hres & Hpre & Hpost)].
  - split; [by rewrite Heq|].
    intros b0 Hb0 Hpos. specialize (Hle b0 Hb0). subst amount. simpl in Hpos. lia.
  - rewrite Hres in *. simpl in *. split.
    + intros Hle. assert (b ∈ bids) as Hin
        by (rewrite Hb; apply elem_of_app; right; by left).
      specialize (Hle b Hin). subst amount. simpl in Hle. lia.
    + intros _ _ _. exists pre, b, post. split_and!; [done|done|done|].
      intros x Hx. rewrite Hb in Hx. subst amount. simpl.
      apply elem_of_app in Hx as [Hx|Hx]; [specialize (Hpre x Hx); lia|].
      apply elem_of_cons in Hx as [->|Hx]; [lia | by apply Hpost].
Qed.
